(** * go-protoparser: the recursive-descent parser of [parser.go]

    A shallow embedding of the lexer wrapper and of every production of
    [parser.go], followed by the properties of the parser that the
    specification states about it.

    The character scanner ([text/scanner]) is an external collaborator: the
    parser only ever calls [Scan] and [TokenText] on it.  It is modelled as
    the stream of tokens it still has to deliver, the cursor being the head
    of the stream. *)

From Stdlib Require Import String Ascii List ZArith Lia Bool.
From Equations Require Import Equations.
Import ListNotations.

Open Scope string_scope.
Open Scope Z_scope.
Open Scope list_scope.

(** Go's [==] and [+] on strings. *)
Infix "==" := String.eqb (at level 70, no associativity).
Infix "+++" := String.append (at level 60, right associativity).

(** ** The token source *)

Module scanner.

(** Token classes of [text/scanner]; a punctuation token is classified by
    its own (non-negative) code point. *)
Definition EOF : Z := -1.
Definition Ident : Z := -2.
Definition Int : Z := -3.
Definition Float : Z := -4.
Definition Char : Z := -5.
Definition String : Z := -6.
Definition RawString : Z := -7.
Definition Comment : Z := -8.

(** [scanner.Position] (the file name is not used anywhere). *)
Record Position := mkPosition { Offset : Z; Line : Z; Column : Z }.

(** One scanned token: the rune [Scan] returns for it, its [TokenText]
    and the [Position] of its first character. *)
Record Token := mkToken { tok : Z; lit : string; pos : Position }.

End scanner.

Import scanner.

(** [lexer]: the tokens from the current one on.  The empty stream is
    end-of-input: [Scan] keeps returning [EOF] there and [TokenText] is the
    empty string. *)
Definition lexer := list Token.

Definition token (lex : lexer) : Z :=
  match lex with
  | [] => EOF
  | t :: _ => tok t
  end.

Definition text (lex : lexer) : string :=
  match lex with
  | [] => ""
  | t :: _ => lit t
  end.

Definition next (lex : lexer) : lexer := tl lex.

(** The position of the token under the cursor, none at end-of-input. *)
Definition current_position (lex : lexer) : option Position :=
  match lex with
  | [] => None
  | t :: _ => Some (pos t)
  end.

(** ** The syntax tree *)

Record Type_ := mkType { Type_Name : string; Type_IsRepeated : bool }.

Record Field := mkField
  { Field_Comments : list string;
    Field_Type : option Type_;
    Field_Name : string }.

Record Oneof := mkOneof
  { Oneof_Comments : list string;
    Oneof_Name : string;
    Oneof_Fields : list Field }.

Record EnumField := mkEnumField
  { EnumField_Comments : list string;
    EnumField_Name : string }.

Record Enum := mkEnum
  { Enum_Comments : list string;
    Enum_Name : string;
    Enum_EnumFields : list EnumField }.

#[warnings="-register-all"]
Inductive Message := mkMessage
  { Message_Comments : list string;
    Message_Name : string;
    Message_Fields : list Field;
    Message_Nests : list Message;
    Message_Enums : list Enum;
    Message_Oneofs : list Oneof }.

Record RPC := mkRPC
  { RPC_Comments : list string;
    RPC_Name : string;
    RPC_Argument : option Type_;
    RPC_Return : option Type_ }.

Record Service := mkService
  { Service_Comments : list string;
    Service_Name : string;
    Service_RPCs : list RPC }.

Record ProtocolBuffer := mkProtocolBuffer
  { Package : string;
    Service_ : option Service;
    Messages : list Message }.

(** ** Outcomes

    A production returns its value together with the advanced lexer, or the
    error of [fmt.Errorf], or it is still running when the step budget is
    used up. *)
Inductive result (A : Type) : Type :=
| Ok (a : A) (lex : lexer)
| Err (e : string)
| OutOfFuel.

Arguments Ok {A} a lex.
Arguments Err {A} e.
Arguments OutOfFuel {A}.

Notation "'try' x 'at' l <- e ; k" :=
  (match e with
   | Ok x l => k
   | Err msg => Err msg
   | OutOfFuel => OutOfFuel
   end)
  (at level 10, x pattern, l name, e at level 100, k at level 200).

(** ** Productions that always return *)

(** Keeps the equation of a test at hand in the branch it selects. *)
Definition inspect {A : Type} (a : A) : {b : A | a = b} := exist _ a eq_refl.

(** [for lex.token == scanner.Comment { s = append(s, lex.text());
    lex.next() }] *)
Equations parseComments_loop (s : list string) (lex : lexer)
  : list string * lexer by wf (length lex) lt :=
  parseComments_loop s lex with inspect (token lex =? Comment) := {
    | exist _ true H => parseComments_loop (s ++ [text lex]) (next lex)
    | exist _ false _ => (s, lex) }.
Next Obligation.
  destruct lex as [|t rest]; simpl in *; [discriminate | lia].
Qed.

Definition parseComments (lex : lexer) : list string * lexer :=
  parseComments_loop [] lex.

(** [for lex.text() == '.' { s += lex.text(); lex.next(); s += lex.text();
    lex.next() }] *)
Equations parseType_dots (s : string) (lex : lexer)
  : string * lexer by wf (length lex) lt :=
  parseType_dots s lex with inspect (text lex == ".") := {
    | exist _ true H =>
        parseType_dots ((s +++ text lex) +++ text (next lex)) (next (next lex))
    | exist _ false _ => (s, lex) }.
Next Obligation.
  destruct lex as [|t [|t' rest]]; simpl in *; [discriminate | lia | lia].
Qed.

Equations parseType (lex : lexer) : Type_ * lexer by wf (length lex) lt :=
  parseType lex with inspect (text lex == "repeated") := {
    | exist _ true H =>
        let (t, lex') := parseType (next lex) in
        (mkType (Type_Name t) true, lex')
    | exist _ false _ =>
        let (s, lex') := parseType_dots (text lex) (next lex) in
        (mkType s false, lex') }.
Next Obligation.
  destruct lex as [|t rest]; simpl in *; [discriminate | lia].
Qed.

(** ['package' var';'] *)
Definition parsePackage (lex : lexer) : result string :=
  let text_ := text lex in
  if negb (text_ == "package")
  then Err ("[BUG] not found package, text=" +++ text_)
  else
    let lex := next lex in
    Ok (text lex) lex.

(** ** Productions with unbounded loops

    Every iteration of a [for] loop takes one unit of [fuel], and so does
    every call of [parseMessage] or [parseOneof] that gets past its keyword
    test.  A production that is [OutOfFuel] for every budget never
    returns. *)

(** [Name'('Argument')' 'returns' '('Return')' '{''}'] *)
Fixpoint parseRPC_loop (fuel : nat) (rpc : RPC) (lex : lexer) : result RPC :=
  match fuel with
  | O => OutOfFuel
  | S fuel =>
      if text lex == "}" then Ok rpc lex
      else
        let token := text lex in
        if RPC_Name rpc == "" then
          parseRPC_loop fuel
            (mkRPC (RPC_Comments rpc) token (RPC_Argument rpc) (RPC_Return rpc))
            (next lex)
        else
          match RPC_Argument rpc with
          | None =>
              let lex := next lex in
              let (t, lex) := parseType lex in
              let lex := next lex in
              parseRPC_loop fuel
                (mkRPC (RPC_Comments rpc) (RPC_Name rpc) (Some t)
                   (RPC_Return rpc))
                lex
          | Some _ =>
              match RPC_Return rpc with
              | None =>
                  let lex := next lex in
                  let lex := next lex in
                  let (t, lex) := parseType lex in
                  let lex := next lex in
                  let lex := next lex in
                  parseRPC_loop fuel
                    (mkRPC (RPC_Comments rpc) (RPC_Name rpc)
                       (RPC_Argument rpc) (Some t))
                    lex
              | Some _ => parseRPC_loop fuel rpc (next lex)
              end
          end
  end.

Definition parseRPC (fuel : nat) (lex : lexer) : result RPC :=
  try rpc at lex <- parseRPC_loop fuel (mkRPC [] "" None None) lex;
  Ok rpc (next lex).

(** [rpc] *)
Fixpoint parseServiceContent_loop (fuel : nat) (rpcs : list RPC) (lex : lexer)
  : result (list RPC) :=
  match fuel with
  | O => OutOfFuel
  | S fuel =>
      if text lex == "}" then Ok rpcs lex
      else if negb (token lex =? Comment)
      then Err ("not found comment, text=" +++ text lex)
      else
        let (comments, lex) := parseComments lex in
        if text lex == "rpc" then
          let lex := next lex in
          try rpc at lex <- parseRPC fuel lex;
          let rpc :=
            mkRPC (RPC_Comments rpc ++ comments) (RPC_Name rpc)
                  (RPC_Argument rpc) (RPC_Return rpc) in
          parseServiceContent_loop fuel (rpcs ++ [rpc]) lex
        else Err ("not found rpc, text=" +++ text lex)
  end.

Definition parseServiceContent (fuel : nat) (lex : lexer) : result (list RPC) :=
  parseServiceContent_loop fuel [] lex.

(** ['service' var '{' serviceContent '}'] *)
Definition parseService (fuel : nat) (lex : lexer) : result Service :=
  let text_ := text lex in
  if negb (text_ == "service")
  then Err ("[BUG] not found service, text=" +++ text_)
  else
    let lex := next lex in
    let name := text lex in
    let lex := next lex in
    let lex := next lex in
    try rpcs at lex <- parseServiceContent fuel lex;
    let lex := next lex in
    Ok (mkService [] name rpcs) lex.

(** [type name = number validator';'] *)
Fixpoint parseField_loop (fuel : nat) (field : Field) (lex : lexer)
  : result Field :=
  match fuel with
  | O => OutOfFuel
  | S fuel =>
      if text lex == ";" then Ok field lex
      else
        let token := text lex in
        match Field_Type field with
        | None =>
            let (t, lex) := parseType lex in
            parseField_loop fuel
              (mkField (Field_Comments field) (Some t) (Field_Name field)) lex
        | Some _ =>
            if Field_Name field == "" then
              parseField_loop fuel
                (mkField (Field_Comments field) (Field_Type field) token)
                (next lex)
            else parseField_loop fuel field (next lex)
        end
  end.

Definition parseField (fuel : nat) (lex : lexer) : result Field :=
  try field at lex <- parseField_loop fuel (mkField [] None "") lex;
  Ok field (next lex).

(** [for lex.text() != ';' { lex.next() }] *)
Fixpoint parseEnumField_loop (fuel : nat) (lex : lexer) : result unit :=
  match fuel with
  | O => OutOfFuel
  | S fuel =>
      if text lex == ";" then Ok tt lex
      else parseEnumField_loop fuel (next lex)
  end.

(** [comment var '=' tag';'] *)
Definition parseEnumField (fuel : nat) (lex : lexer) : result EnumField :=
  if negb (token lex =? Comment)
  then Err ("not found comment, text=" +++ text lex)
  else
    let (comments, lex) := parseComments lex in
    let name := text lex in
    try _ at lex <- parseEnumField_loop fuel lex;
    Ok (mkEnumField comments name) (next lex).

(** [EnumField...}] *)
Fixpoint parseEnumContent_loop (fuel : nat) (fields : list EnumField)
  (lex : lexer) : result (list EnumField) :=
  match fuel with
  | O => OutOfFuel
  | S fuel =>
      if text lex == "}" then Ok fields lex
      else
        try field at lex <- parseEnumField fuel lex;
        parseEnumContent_loop fuel (fields ++ [field]) lex
  end.

Definition parseEnumContent (fuel : nat) (lex : lexer)
  : result (list EnumField) :=
  parseEnumContent_loop fuel [] lex.

(** ['enum' var '{' EnumContent '}'] *)
Definition parseEnum (fuel : nat) (lex : lexer) : result Enum :=
  let text_ := text lex in
  if negb (text_ == "enum")
  then Err ("not found enum, text=" +++ text_)
  else
    let lex := next lex in
    let name := text lex in
    let lex := next lex in
    let lex := next lex in
    try fields at lex <- parseEnumContent fuel lex;
    let lex := next lex in
    Ok (mkEnum [] name fields) lex.

(** What [parseMessageContent] returns: fields, messages, enums, oneofs. *)
Definition MessageContent : Type :=
  (list Field * list Message * list Enum * list Oneof)%type.

(** ['message' var '{' messageContent '}'], the loop over the body elements
    ([message], [enum], [oneof], field) and ['oneof' var '{' OneofContent '}'].
    The three call each other. *)
Fixpoint parseMessage (fuel : nat) (lex : lexer) : result Message :=
  let text_ := text lex in
  if negb (text_ == "message")
  then Err ("not found message, text=" +++ text_)
  else
    match fuel with
    | O => OutOfFuel
    | S fuel =>
        let lex := next lex in
        let name := text lex in
        let lex := next lex in
        let lex := next lex in
        try (fields, nests, enums, oneofs) at lex <-
          parseMessageContent_loop fuel [] [] [] [] lex;
        let lex := next lex in
        Ok (mkMessage [] name fields nests enums oneofs) lex
    end

with parseMessageContent_loop (fuel : nat) (fields : list Field)
  (messages : list Message) (enums : list Enum) (oneofs : list Oneof)
  (lex : lexer) : result MessageContent :=
  match fuel with
  | O => OutOfFuel
  | S fuel =>
      if text lex == "}" then Ok (fields, messages, enums, oneofs) lex
      else if negb (token lex =? Comment)
      then Err ("not found comment, text=" +++ text lex)
      else
        let (comments, lex) := parseComments lex in
        if text lex == "message" then
          try message at lex <- parseMessage fuel lex;
          let message :=
            mkMessage (Message_Comments message ++ comments)
              (Message_Name message) (Message_Fields message)
              (Message_Nests message) (Message_Enums message)
              (Message_Oneofs message) in
          parseMessageContent_loop fuel fields (messages ++ [message])
            enums oneofs lex
        else if text lex == "enum" then
          try enum at lex <- parseEnum fuel lex;
          let enum :=
            mkEnum (Enum_Comments enum ++ comments) (Enum_Name enum)
              (Enum_EnumFields enum) in
          parseMessageContent_loop fuel fields messages (enums ++ [enum])
            oneofs lex
        else if text lex == "oneof" then
          try oneof at lex <- parseOneof fuel lex;
          let oneof :=
            mkOneof (Oneof_Comments oneof ++ comments) (Oneof_Name oneof)
              (Oneof_Fields oneof) in
          parseMessageContent_loop fuel fields messages enums
            (oneofs ++ [oneof]) lex
        else
          try field at lex <- parseField fuel lex;
          let field :=
            mkField (Field_Comments field ++ comments) (Field_Type field)
              (Field_Name field) in
          parseMessageContent_loop fuel (fields ++ [field]) messages enums
            oneofs lex
  end

with parseOneof (fuel : nat) (lex : lexer) : result Oneof :=
  let text_ := text lex in
  if negb (text_ == "oneof")
  then Err ("not found oneof, text=" +++ text_)
  else
    match fuel with
    | O => OutOfFuel
    | S fuel =>
        let lex := next lex in
        let name := text lex in
        let lex := next lex in
        let lex := next lex in
        try (fields, _, _, _) at lex <-
          parseMessageContent_loop fuel [] [] [] [] lex;
        let lex := next lex in
        Ok (mkOneof [] name fields) lex
    end.

Definition parseMessageContent (fuel : nat) (lex : lexer)
  : result MessageContent :=
  parseMessageContent_loop fuel [] [] [] [] lex.

(** The loop of [parse] over the top-level statements. *)
Fixpoint parse_loop (fuel : nat) (pkg : string) (service : Service)
  (messages : list Message) (lex : lexer) : result ProtocolBuffer :=
  match fuel with
  | O => OutOfFuel
  | S fuel =>
      if token lex =? EOF
      then Ok (mkProtocolBuffer pkg (Some service) messages) lex
      else
        let (comments, lex) := parseComments lex in
        if text lex == "package" then
          try p at lex <- parsePackage lex;
          parse_loop fuel p service messages lex
        else if text lex == "service" then
          try s at lex <- parseService fuel lex;
          let s :=
            mkService (Service_Comments s ++ comments) (Service_Name s)
              (Service_RPCs s) in
          parse_loop fuel pkg s messages lex
        else if text lex == "message" then
          try message at lex <- parseMessage fuel lex;
          let message :=
            mkMessage (Message_Comments message ++ comments)
              (Message_Name message) (Message_Fields message)
              (Message_Nests message) (Message_Enums message)
              (Message_Oneofs message) in
          parse_loop fuel pkg service (messages ++ [message]) lex
        else parse_loop fuel pkg service messages (next lex)
  end.

Definition parse (fuel : nat) (lex : lexer) : result ProtocolBuffer :=
  parse_loop fuel "" (mkService [] "" []) [] lex.

(** [Parse]: the scanner is positioned on the first token of the input and
    handed to [parse]. *)
Definition Parse (fuel : nat) (input : lexer) : result ProtocolBuffer :=
  parse fuel input.

(** ** The option production

    [ParseOption] belongs to the newer [parser] package, of which the
    sources hold the tests only. *)

(** Modelled from the spec: the errors that section 4.4 names for the option
    production; their declaration is missing from the sources. *)
Inductive ParseError : Type :=
| ExpectedKeyword (keyword : string)
| ExpectedToken (punctuation : string).

(** Modelled from the spec: the Option node of section 3 with the position
    that section 4.4 stamps on it; its declaration is missing from the
    sources. *)
Record Option_ := mkOption
  { OptionName : string;
    Constant : string;
    Option_Position : option Position }.

(** Modelled from the spec: zero or more [.identifier] segments of a dotted
    full-identifier (section 4.4, step 2), accumulated in their exact
    textual form; the implementation is missing from the sources. *)
Fixpoint dotted_segments (lex : lexer) : string * lexer :=
  match lex with
  | dot :: id :: rest =>
      if lit dot == "."
      then let (s, lex') := dotted_segments rest in
           (lit dot +++ lit id +++ s, lex')
      else ("", lex)
  | _ => ("", lex)
  end.

(** Modelled from the spec: the option name of section 4.4, step 2: an
    identifier with its dotted segments, or a parenthesized full-identifier
    followed by dotted segments; the implementation is missing from the
    sources. *)
Definition option_name (lex : lexer) : (string * lexer) + ParseError :=
  if text lex == "(" then
    let lex := next lex in
    let ident := text lex in
    let lex := next lex in
    let (segments, lex) := dotted_segments lex in
    if negb (text lex == ")") then inr (ExpectedToken ")")
    else
      let lex := next lex in
      let (more, lex) := dotted_segments lex in
      inl ("(" +++ ident +++ segments +++ ")" +++ more, lex)
  else
    let ident := text lex in
    let lex := next lex in
    let (segments, lex) := dotted_segments lex in
    inl (ident +++ segments, lex).

(** Modelled from the spec: the option production [ParseOption] of section
    4.4 (entry precondition and steps 1 to 5); its implementation is missing
    from the sources. *)
Definition ParseOption (lex : lexer) : (Option_ * lexer) + ParseError :=
  if negb (text lex == "option") then inr (ExpectedKeyword "option")
  else
    let position := current_position lex in
    let lex := next lex in
    match option_name lex with
    | inr e => inr e
    | inl (name, lex) =>
        if negb (text lex == "=") then inr (ExpectedToken "=")
        else
          let lex := next lex in
          let constant := text lex in
          let lex := next lex in
          if negb (text lex == ";") then inr (ExpectedToken ";")
          else inl (mkOption name constant position, next lex)
    end.

(** ** Views used in the statements *)

(** The outcome of a production without the lexer it leaves behind. *)
Definition outcome {A : Type} (r : result A) : result A :=
  match r with
  | Ok a _ => Ok a []
  | Err e => Err e
  | OutOfFuel => OutOfFuel
  end.

(** What the parser can see of a token: its class and its text. *)
Definition visible (t : Token) : Z * string := (tok t, lit t).

(** The same tokens with their positions forgotten. *)
Definition unplaced (lex : lexer) : lexer :=
  map (fun t => mkToken (tok t) (lit t) (mkPosition 0 0 0)) lex.

(** Applies [f] to the lexer a production leaves behind. *)
Definition on_rest {A : Type} (f : lexer -> lexer) (r : result A) : result A :=
  match r with
  | Ok a lex => Ok a (f lex)
  | Err e => Err e
  | OutOfFuel => OutOfFuel
  end.

(** ** Token streams of sample inputs

    Unless a sample is about positions, its tokens are all placed at the
    start of the file. *)
Definition origin : Position := mkPosition 0 1 1.
Definition ident (s : string) : Token := mkToken Ident s origin.
Definition int (s : string) : Token := mkToken Int s origin.
Definition comment (s : string) : Token := mkToken Comment s origin.
Definition punct (c : ascii) : Token :=
  mkToken (Z.of_nat (nat_of_ascii c)) (String.String c "") origin.

(** [message M { map<int32, string> my_map = 4; }] *)
Definition map_field_input : lexer :=
  [ident "message"; ident "M"; punct "{";
   ident "map"; punct "<"; ident "int32"; punct ","; ident "string";
   punct ">"; ident "my_map"; punct "="; int "4"; punct ";";
   punct "}"].


(** [message M { // c], newline, [int32 x = 1] and the input ends. *)
Definition unterminated_field_input : lexer :=
  [ident "message"; ident "M"; punct "{"; comment "// c";
   ident "int32"; ident "x"; punct "="; int "1"].

(** [service S { // c], newline, [rpc Get (Req) returns (Res)] and the input
    ends. *)
Definition unterminated_rpc_input : lexer :=
  [ident "service"; ident "S"; punct "{"; comment "// c";
   ident "rpc"; ident "Get"; punct "("; ident "Req"; punct ")";
   ident "returns"; punct "("; ident "Res"; punct ")"].

(** [message M { // e], newline, [enum E { // c], newline, [A = 0] and the
    input ends. *)
Definition unterminated_enum_field_input : lexer :=
  [ident "message"; ident "M"; punct "{"; comment "// e";
   ident "enum"; ident "E"; punct "{"; comment "// c";
   ident "A"; punct "="; int "0"].

(** [message M { }] on the first line of a file, and the same after an
    empty first line. *)
Definition message_on_line_1 : lexer :=
  [mkToken Ident "message" (mkPosition 0 1 1);
   mkToken Ident "M" (mkPosition 8 1 9);
   mkToken 123 "{" (mkPosition 10 1 11);
   mkToken 125 "}" (mkPosition 12 1 13)].

Definition message_on_line_2 : lexer :=
  [mkToken Ident "message" (mkPosition 1 2 1);
   mkToken Ident "M" (mkPosition 9 2 9);
   mkToken 123 "{" (mkPosition 11 2 11);
   mkToken 125 "}" (mkPosition 13 2 13)].


(** [syntax = proto3; message B { }] *)
Definition syntax_then_message_input : lexer :=
  [ident "syntax"; punct "="; ident "proto3"; punct ";";
   ident "message"; ident "B"; punct "{"; punct "}"].

(** [service A { } service B { }] and [service B { }] alone. *)
Definition service_B_input : lexer :=
  [ident "service"; ident "B"; punct "{"; punct "}"].

Definition two_services_input : lexer :=
  [ident "service"; ident "A"; punct "{"; punct "}"] ++ service_B_input.

(** [import public other; option java_package = foo; service B { }] *)
Definition import_option_input : lexer :=
  [ident "import"; ident "public"; ident "other"; punct ";";
   ident "option"; ident "java_package"; punct "="; ident "foo"; punct ";"]
  ++ service_B_input.

(** [oneof foo { // nested], newline, [message N { } // name], newline,
    [string name = 5; }] *)
Definition oneof_with_message_input : lexer :=
  [ident "oneof"; ident "foo"; punct "{"; comment "// nested";
   ident "message"; ident "N"; punct "{"; punct "}"; comment "// name";
   ident "string"; ident "name"; punct "="; int "5"; punct ";";
   punct "}"].

(** [option (my_option).a = true;] *)
Definition option_input : lexer :=
  [ident "option"; punct "("; ident "my_option"; punct ")"; punct ".";
   ident "a"; punct "="; ident "true"; punct ";"].

(** ** Shapes of well-formed statements

    Token streams described by their parts, for the statements about what
    the productions make of them. *)

(** A dotted type name after its first identifier: pairs of a [.] token and
    the segment that follows it. *)
Definition name_segments (pairs : list (Token * Token)) : list Token :=
  flat_map (fun p => [fst p; snd p]) pairs.

(** The text that [parseType] accumulates over such pairs, starting from
    [s]. *)
Definition qualified (s : string) (pairs : list (Token * Token)) : string :=
  fold_left (fun acc p => (acc +++ lit (fst p)) +++ lit (snd p)) pairs s.

(** The three words on which the loop of [parse] dispatches. *)
Definition top_level_keyword (s : string) : Prop :=
  s = "package" \/ s = "service" \/ s = "message".

(** The two errors of the body productions. *)
Definition body_error (e : string) : Prop :=
  exists t : string,
    e = "not found comment, text=" +++ t \/ e = "not found rpc, text=" +++ t.

(** An enum value as written: its leading comments, the tokens from its name
    up to the terminator, and the terminator. *)
Record EnumValueSyntax := mkEnumValueSyntax
  { value_comments : list Token;
    value_tokens : list Token;
    value_end : Token }.

Definition enum_value_stream (v : EnumValueSyntax) : list Token :=
  value_comments v ++ value_tokens v ++ [value_end v].

Definition enum_value_node (v : EnumValueSyntax) : EnumField :=
  mkEnumField (map lit (value_comments v))
    (text (value_tokens v ++ [value_end v])).

(** At least one comment, none of which reads as a closing brace; then
    tokens other than [;], the first of them not a comment; then [;]. *)
Definition enum_value_ok (v : EnumValueSyntax) : Prop :=
  value_comments v <> [] /\
  Forall (fun c => tok c = Comment /\ lit c <> "}") (value_comments v) /\
  token (value_tokens v ++ [value_end v]) <> Comment /\
  Forall (fun t => lit t <> ";") (value_tokens v) /\
  lit (value_end v) = ";".

(** A field as written: its leading comments, the single token of its type,
    its name, the tokens up to the terminator, and the terminator. *)
Record FieldSyntax := mkFieldSyntax
  { field_comments : list Token;
    field_type : Token;
    field_name : Token;
    field_rest : list Token;
    field_end : Token }.

Definition field_stream (f : FieldSyntax) : list Token :=
  field_comments f ++
  field_type f :: field_name f :: field_rest f ++ [field_end f].

Definition field_node (f : FieldSyntax) : Field :=
  mkField (map lit (field_comments f))
    (Some (mkType (lit (field_type f)) false)) (lit (field_name f)).

(** At least one comment, none of which reads as a closing brace; a type
    that is neither a comment nor one of the words the body dispatches on,
    nor [repeated], nor [;]; a name that is neither empty nor [.] nor [;];
    then tokens other than [;]; then [;]. *)
Definition field_ok (f : FieldSyntax) : Prop :=
  field_comments f <> [] /\
  Forall (fun c => tok c = Comment /\ lit c <> "}") (field_comments f) /\
  tok (field_type f) <> Comment /\
  ~ In (lit (field_type f)) ["message"; "enum"; "oneof"; "repeated"; ";"] /\
  ~ In (lit (field_name f)) [""; "."; ";"] /\
  Forall (fun t => lit t <> ";") (field_rest f) /\
  lit (field_end f) = ";".

(** An RPC as written in a service: its leading comments, the [rpc] word,
    its name, and around the one-word types of its argument and of its result
    the tokens that stand for the parentheses, for [returns] and for the
    opening brace or [;] of its end, then the tokens up to the closing brace
    and the closing brace. *)
Record RPCSyntax := mkRPCSyntax
  { rpc_comments : list Token;
    rpc_keyword : Token;
    rpc_name : Token;
    rpc_open : Token;
    rpc_argument : Token;
    rpc_close : Token;
    rpc_returns : Token;
    rpc_open' : Token;
    rpc_return : Token;
    rpc_close' : Token;
    rpc_body_open : Token;
    rpc_body : list Token;
    rpc_body_close : Token }.

Definition rpc_stream (r : RPCSyntax) : list Token :=
  rpc_comments r ++
  rpc_keyword r :: rpc_name r :: rpc_open r :: rpc_argument r ::
  rpc_close r :: rpc_returns r :: rpc_open' r :: rpc_return r ::
  rpc_close' r :: rpc_body_open r :: rpc_body r ++ [rpc_body_close r].

Definition rpc_node (r : RPCSyntax) : RPC :=
  mkRPC (map lit (rpc_comments r)) (lit (rpc_name r))
    (Some (mkType (lit (rpc_argument r)) false))
    (Some (mkType (lit (rpc_return r)) false)).

(** At least one comment, none of which reads as a closing brace; the word
    [rpc], not a comment; a name that is neither empty nor a closing brace;
    types other than [repeated], neither followed by [.]; no closing brace
    where the opening parenthesis and [returns] stand, nor before the one
    that ends the RPC. *)
Definition rpc_ok (r : RPCSyntax) : Prop :=
  rpc_comments r <> [] /\
  Forall (fun c => tok c = Comment /\ lit c <> "}") (rpc_comments r) /\
  tok (rpc_keyword r) <> Comment /\ lit (rpc_keyword r) = "rpc" /\
  ~ In (lit (rpc_name r)) [""; "}"] /\
  lit (rpc_open r) <> "}" /\
  lit (rpc_argument r) <> "repeated" /\ lit (rpc_close r) <> "." /\
  lit (rpc_returns r) <> "}" /\
  lit (rpc_return r) <> "repeated" /\ lit (rpc_close' r) <> "." /\
  Forall (fun t => lit t <> "}") (rpc_body r) /\
  lit (rpc_body_close r) = "}".

(** ** Files as sequences of top-level statements

    What the loop of [parse] meets at file scope, one entry per iteration:
    each entry has the comments that stand before it. *)
Inductive Statement : Type :=
| Unrecognized (comments : list Token) (t : Token)
| PackageKeyword (comments : list Token) (keyword : Token)
| ServiceDecl (comments : list Token) (tokens : list Token) (s : Service)
| MessageDecl (comments : list Token) (tokens : list Token) (m : Message).

Definition statement_stream (st : Statement) : list Token :=
  match st with
  | Unrecognized comments t => comments ++ [t]
  | PackageKeyword comments keyword => comments ++ [keyword]
  | ServiceDecl comments tokens _ => comments ++ tokens
  | MessageDecl comments tokens _ => comments ++ tokens
  end.

Definition statements_stream (sts : list Statement) : list Token :=
  flat_map statement_stream sts.

(** The entries are what they are called, with [fuel] enough for the
    productions: an unrecognized token is neither a comment nor one of the
    three words; the tokens of a service or of a message start with the
    keyword and parse to the node, whatever follows them. *)
Definition statement_ok (fuel : nat) (st : Statement) : Prop :=
  match st with
  | Unrecognized comments t =>
      Forall (fun c => tok c = Comment) comments /\
      tok t <> Comment /\ tok t <> EOF /\ ~ top_level_keyword (lit t)
  | PackageKeyword comments keyword =>
      Forall (fun c => tok c = Comment) comments /\
      tok keyword <> Comment /\ tok keyword <> EOF /\
      lit keyword = "package"
  | ServiceDecl comments tokens s =>
      Forall (fun c => tok c = Comment) comments /\
      token tokens <> Comment /\ token tokens <> EOF /\
      text tokens = "service" /\
      forall rest, parseService fuel (tokens ++ rest) = Ok s rest
  | MessageDecl comments tokens m =>
      Forall (fun c => tok c = Comment) comments /\
      token tokens <> Comment /\ token tokens <> EOF /\
      text tokens = "message" /\
      forall rest, parseMessage fuel (tokens ++ rest) = Ok m rest
  end.

Definition is_unrecognized (st : Statement) : Prop :=
  match st with
  | Unrecognized _ _ => True
  | _ => False
  end.

(** The message declarations of a file, in order, each with the comments
    before it. *)
Definition messages_of (sts : list Statement) : list Message :=
  flat_map
    (fun st =>
       match st with
       | MessageDecl comments _ m =>
           [mkMessage (Message_Comments m ++ map lit comments)
              (Message_Name m) (Message_Fields m) (Message_Nests m)
              (Message_Enums m) (Message_Oneofs m)]
       | _ => []
       end)
    sts.

(** The last service declaration of a file with the comments before it,
    [service] when there is none. *)
Definition service_of (sts : list Statement) (service : Service) : Service :=
  fold_left
    (fun acc st =>
       match st with
       | ServiceDecl comments _ s =>
           mkService (Service_Comments s ++ map lit comments)
             (Service_Name s) (Service_RPCs s)
       | _ => acc
       end)
    sts service.

(** The text of the token that follows the last [package] word of a file
    ([trailing] being what follows the statements), [pkg] when there is
    none. *)
Fixpoint package_of (sts : list Statement) (trailing : lexer) (pkg : string)
  : string :=
  match sts with
  | [] => pkg
  | PackageKeyword _ _ :: sts' =>
      package_of sts' trailing (text (statements_stream sts' ++ trailing))
  | _ :: sts' => package_of sts' trailing pkg
  end.

(** [import], a quoted [service.proto], [;] and then [message M { }]: the
    scanner is not asked for string literals, so the quotes are tokens of
    their own and [service] is a word. *)
Definition import_service_input : lexer :=
  [ident "import"; punct "034"; ident "service"; punct "."; ident "proto";
   punct "034"; punct ";";
   ident "message"; ident "M"; punct "{"; punct "}"].

(** [import public other;], newline, [message A { }], newline, [// second],
    newline, [message B { }], newline, [service S { } service T { }] *)
Definition mixed_file : list Statement :=
  [Unrecognized [] (ident "import"); Unrecognized [] (ident "public");
   Unrecognized [] (ident "other"); Unrecognized [] (punct ";");
   MessageDecl [] [ident "message"; ident "A"; punct "{"; punct "}"]
     (mkMessage [] "A" [] [] [] []);
   MessageDecl [comment "// second"]
     [ident "message"; ident "B"; punct "{"; punct "}"]
     (mkMessage [] "B" [] [] [] []);
   ServiceDecl [] [ident "service"; ident "S"; punct "{"; punct "}"]
     (mkService [] "S" []);
   ServiceDecl [] [ident "service"; ident "T"; punct "{"; punct "}"]
     (mkService [] "T" [])].

(** [syntax = proto3; message B { }], the tokens of
    [syntax_then_message_input]. *)
Definition syntax_then_message_file : list Statement :=
  [Unrecognized [] (ident "syntax"); Unrecognized [] (punct "=");
   Unrecognized [] (ident "proto3"); Unrecognized [] (punct ";");
   MessageDecl [] [ident "message"; ident "B"; punct "{"; punct "}"]
     (mkMessage [] "B" [] [] [] [])].

(** ** The productions, one step at a time *)

Lemma parseComments_loop_eq (s : list string) (lex : lexer) :
  parseComments_loop s lex =
  if token lex =? Comment
  then parseComments_loop (s ++ [text lex]) (next lex)
  else (s, lex).
Proof.
  funelim (parseComments_loop s lex);
    match goal with E : (_ =? _) = _ |- _ => rewrite E end; reflexivity.
Qed.

Lemma parseType_dots_eq (s : string) (lex : lexer) :
  parseType_dots s lex =
  if text lex == "."
  then parseType_dots ((s +++ text lex) +++ text (next lex)) (next (next lex))
  else (s, lex).
Proof.
  funelim (parseType_dots s lex);
    match goal with E : (_ == _) = _ |- _ => rewrite E end; reflexivity.
Qed.

Lemma parseType_eq (lex : lexer) :
  parseType lex =
  if text lex == "repeated"
  then let (t, lex') := parseType (next lex) in
       (mkType (Type_Name t) true, lex')
  else let (s, lex') := parseType_dots (text lex) (next lex) in
       (mkType s false, lex').
Proof.
  funelim (parseType lex);
    match goal with E : (_ == _) = _ |- _ => rewrite E end; reflexivity.
Qed.

(** The three mutually recursive productions, one step at a time. *)

Lemma parseMessage_eq (fuel : nat) (lex : lexer) :
  parseMessage fuel lex =
  if negb (text lex == "message")
  then Err ("not found message, text=" +++ text lex)
  else
    match fuel with
    | O => OutOfFuel
    | S fuel =>
        try (fields, nests, enums, oneofs) at lex' <-
          parseMessageContent fuel (next (next (next lex)));
        Ok (mkMessage [] (text (next lex)) fields nests enums oneofs)
           (next lex')
    end.
Proof. destruct fuel; reflexivity. Qed.

Lemma parseOneof_eq (fuel : nat) (lex : lexer) :
  parseOneof fuel lex =
  if negb (text lex == "oneof")
  then Err ("not found oneof, text=" +++ text lex)
  else
    match fuel with
    | O => OutOfFuel
    | S fuel =>
        try (fields, _, _, _) at lex' <-
          parseMessageContent fuel (next (next (next lex)));
        Ok (mkOneof [] (text (next lex)) fields) (next lex')
    end.
Proof. destruct fuel; reflexivity. Qed.

Lemma parseMessageContent_loop_eq (fuel : nat) (fields : list Field)
  (messages : list Message) (enums : list Enum) (oneofs : list Oneof)
  (lex : lexer) :
  parseMessageContent_loop (S fuel) fields messages enums oneofs lex =
  if text lex == "}" then Ok (fields, messages, enums, oneofs) lex
  else if negb (token lex =? Comment)
  then Err ("not found comment, text=" +++ text lex)
  else
    let (comments, lex) := parseComments lex in
    if text lex == "message" then
      try message at lex <- parseMessage fuel lex;
      parseMessageContent_loop fuel fields
        (messages ++
         [mkMessage (Message_Comments message ++ comments)
            (Message_Name message) (Message_Fields message)
            (Message_Nests message) (Message_Enums message)
            (Message_Oneofs message)])
        enums oneofs lex
    else if text lex == "enum" then
      try enum at lex <- parseEnum fuel lex;
      parseMessageContent_loop fuel fields messages
        (enums ++
         [mkEnum (Enum_Comments enum ++ comments) (Enum_Name enum)
            (Enum_EnumFields enum)])
        oneofs lex
    else if text lex == "oneof" then
      try oneof at lex <- parseOneof fuel lex;
      parseMessageContent_loop fuel fields messages enums
        (oneofs ++
         [mkOneof (Oneof_Comments oneof ++ comments) (Oneof_Name oneof)
            (Oneof_Fields oneof)])
        lex
    else
      try field at lex <- parseField fuel lex;
      parseMessageContent_loop fuel
        (fields ++
         [mkField (Field_Comments field ++ comments) (Field_Type field)
            (Field_Name field)])
        messages enums oneofs lex.
Proof. reflexivity. Qed.

(** One iteration of the loop of [parse], after the leading comments. *)
Lemma parse_loop_eq (fuel : nat) (pkg : string) (service : Service)
  (messages : list Message) (lex : lexer) :
  token lex <> EOF ->
  parse_loop (S fuel) pkg service messages lex =
  let comments := fst (parseComments lex) in
  let lex := snd (parseComments lex) in
  if text lex == "package" then
    try p at lex <- parsePackage lex;
    parse_loop fuel p service messages lex
  else if text lex == "service" then
    try s at lex <- parseService fuel lex;
    parse_loop fuel pkg
      (mkService (Service_Comments s ++ comments) (Service_Name s)
         (Service_RPCs s))
      messages lex
  else if text lex == "message" then
    try message at lex <- parseMessage fuel lex;
    parse_loop fuel pkg service
      (messages ++
       [mkMessage (Message_Comments message ++ comments)
          (Message_Name message) (Message_Fields message)
          (Message_Nests message) (Message_Enums message)
          (Message_Oneofs message)])
      lex
  else parse_loop fuel pkg service messages (next lex).
Proof.
  intros H. apply Z.eqb_neq in H. simpl. rewrite H.
  destruct (parseComments lex). reflexivity.
Qed.

(** ** The step budget

    An outcome other than [OutOfFuel] is the outcome of the production: a
    larger budget does not change it. *)

(** A call followed by the rest of a loop: both settle with the budget. *)
Lemma try_more_fuel {A B : Type} (r r' : result A)
  (k k' : A -> lexer -> result B) :
  (r <> OutOfFuel -> r' = r) ->
  (forall a lex, k a lex <> OutOfFuel -> k' a lex = k a lex) ->
  (try a at lex <- r; k a lex) <> OutOfFuel ->
  (try a at lex <- r'; k' a lex) = (try a at lex <- r; k a lex).
Proof.
  intros Hr Hk H. destruct r as [a lex| |].
  - rewrite Hr by discriminate. now apply Hk.
  - now rewrite Hr by discriminate.
  - now elim H.
Qed.

Lemma parseRPC_loop_more_fuel (fuel : nat) :
  forall fuel' rpc lex,
    (fuel <= fuel')%nat ->
    parseRPC_loop fuel rpc lex <> OutOfFuel ->
    parseRPC_loop fuel' rpc lex = parseRPC_loop fuel rpc lex.
Proof.
  induction fuel as [|fuel IH]; intros [|fuel'] rpc lex Hle; try easy; try lia.
  simpl.
  destruct (text lex == "}"); [reflexivity|].
  destruct (RPC_Name rpc == ""); [apply IH; lia|].
  destruct (RPC_Argument rpc).
  - destruct (RPC_Return rpc); [apply IH; lia|].
    destruct (parseType (next (next lex))). apply IH; lia.
  - destruct (parseType (next lex)). apply IH; lia.
Qed.

Lemma parseRPC_more_fuel (fuel fuel' : nat) (lex : lexer) :
  (fuel <= fuel')%nat ->
  parseRPC fuel lex <> OutOfFuel ->
  parseRPC fuel' lex = parseRPC fuel lex.
Proof.
  unfold parseRPC. intros Hle.
  apply try_more_fuel; [now apply parseRPC_loop_more_fuel | reflexivity].
Qed.

Lemma parseField_loop_more_fuel (fuel : nat) :
  forall fuel' field lex,
    (fuel <= fuel')%nat ->
    parseField_loop fuel field lex <> OutOfFuel ->
    parseField_loop fuel' field lex = parseField_loop fuel field lex.
Proof.
  induction fuel as [|fuel IH]; intros [|fuel'] field lex Hle; try easy;
    try lia.
  simpl.
  destruct (text lex == ";"); [reflexivity|].
  destruct (Field_Type field).
  - destruct (Field_Name field == ""); apply IH; lia.
  - destruct (parseType lex). apply IH; lia.
Qed.

Lemma parseField_more_fuel (fuel fuel' : nat) (lex : lexer) :
  (fuel <= fuel')%nat ->
  parseField fuel lex <> OutOfFuel ->
  parseField fuel' lex = parseField fuel lex.
Proof.
  unfold parseField. intros Hle.
  apply try_more_fuel; [now apply parseField_loop_more_fuel | reflexivity].
Qed.

Lemma parseEnumField_loop_more_fuel (fuel : nat) :
  forall fuel' lex,
    (fuel <= fuel')%nat ->
    parseEnumField_loop fuel lex <> OutOfFuel ->
    parseEnumField_loop fuel' lex = parseEnumField_loop fuel lex.
Proof.
  induction fuel as [|fuel IH]; intros [|fuel'] lex Hle; try easy; try lia.
  simpl.
  destruct (text lex == ";"); [reflexivity | apply IH; lia].
Qed.

Lemma parseEnumField_more_fuel (fuel fuel' : nat) (lex : lexer) :
  (fuel <= fuel')%nat ->
  parseEnumField fuel lex <> OutOfFuel ->
  parseEnumField fuel' lex = parseEnumField fuel lex.
Proof.
  unfold parseEnumField. intros Hle.
  destruct (negb (token lex =? Comment)); [reflexivity|].
  destruct (parseComments lex) as [comments lex'].
  apply try_more_fuel; [now apply parseEnumField_loop_more_fuel | reflexivity].
Qed.

Lemma parseEnumContent_loop_more_fuel (fuel : nat) :
  forall fuel' fields lex,
    (fuel <= fuel')%nat ->
    parseEnumContent_loop fuel fields lex <> OutOfFuel ->
    parseEnumContent_loop fuel' fields lex =
    parseEnumContent_loop fuel fields lex.
Proof.
  induction fuel as [|fuel IH]; intros [|fuel'] fields lex Hle; try easy;
    try lia.
  simpl.
  destruct (text lex == "}"); [reflexivity|].
  apply try_more_fuel; [apply parseEnumField_more_fuel; lia|].
  intros field lex'. apply IH; lia.
Qed.

Lemma parseEnum_more_fuel (fuel fuel' : nat) (lex : lexer) :
  (fuel <= fuel')%nat ->
  parseEnum fuel lex <> OutOfFuel ->
  parseEnum fuel' lex = parseEnum fuel lex.
Proof.
  unfold parseEnum, parseEnumContent. intros Hle.
  destruct (negb (text lex == "enum")); [reflexivity|].
  apply try_more_fuel;
    [now apply parseEnumContent_loop_more_fuel | reflexivity].
Qed.

Lemma parseServiceContent_loop_more_fuel (fuel : nat) :
  forall fuel' rpcs lex,
    (fuel <= fuel')%nat ->
    parseServiceContent_loop fuel rpcs lex <> OutOfFuel ->
    parseServiceContent_loop fuel' rpcs lex =
    parseServiceContent_loop fuel rpcs lex.
Proof.
  induction fuel as [|fuel IH]; intros [|fuel'] rpcs lex Hle; try easy; try lia.
  simpl.
  destruct (text lex == "}"); [reflexivity|].
  destruct (negb (token lex =? Comment)); [reflexivity|].
  destruct (parseComments lex) as [comments lex'].
  destruct (text lex' == "rpc"); [|reflexivity].
  apply try_more_fuel; [apply parseRPC_more_fuel; lia|].
  intros rpc lex''. apply IH; lia.
Qed.

Lemma parseService_more_fuel (fuel fuel' : nat) (lex : lexer) :
  (fuel <= fuel')%nat ->
  parseService fuel lex <> OutOfFuel ->
  parseService fuel' lex = parseService fuel lex.
Proof.
  unfold parseService, parseServiceContent. intros Hle.
  destruct (negb (text lex == "service")); [reflexivity|].
  apply try_more_fuel;
    [now apply parseServiceContent_loop_more_fuel | reflexivity].
Qed.

Lemma message_productions_more_fuel (fuel : nat) :
  (forall fuel' lex,
      (fuel <= fuel')%nat ->
      parseMessage fuel lex <> OutOfFuel ->
      parseMessage fuel' lex = parseMessage fuel lex) /\
  (forall fuel' fields messages enums oneofs lex,
      (fuel <= fuel')%nat ->
      parseMessageContent_loop fuel fields messages enums oneofs lex
      <> OutOfFuel ->
      parseMessageContent_loop fuel' fields messages enums oneofs lex =
      parseMessageContent_loop fuel fields messages enums oneofs lex) /\
  (forall fuel' lex,
      (fuel <= fuel')%nat ->
      parseOneof fuel lex <> OutOfFuel ->
      parseOneof fuel' lex = parseOneof fuel lex).
Proof.
  induction fuel as [|fuel (IHm & IHc & IHo)].
  - repeat split.
    + intros fuel' lex _. rewrite !parseMessage_eq.
      destruct (negb (text lex == "message")); easy.
    + intros; easy.
    + intros fuel' lex _. rewrite !parseOneof_eq.
      destruct (negb (text lex == "oneof")); easy.
  - repeat split.
    + intros [|fuel'] lex Hle; [lia|]. rewrite !parseMessage_eq.
      destruct (negb (text lex == "message")); [reflexivity|].
      apply try_more_fuel; [apply IHc; lia | reflexivity].
    + intros [|fuel'] fields messages enums oneofs lex Hle; [lia|].
      rewrite !parseMessageContent_loop_eq.
      destruct (text lex == "}"); [reflexivity|].
      destruct (negb (token lex =? Comment)); [reflexivity|].
      destruct (parseComments lex) as [comments lex'].
      destruct (text lex' == "message").
      { apply try_more_fuel; [apply IHm; lia | intros; apply IHc; [lia|easy]]. }
      destruct (text lex' == "enum").
      { apply try_more_fuel;
          [apply parseEnum_more_fuel; lia | intros; apply IHc; [lia|easy]]. }
      destruct (text lex' == "oneof").
      { apply try_more_fuel; [apply IHo; lia | intros; apply IHc; [lia|easy]]. }
      apply try_more_fuel;
        [apply parseField_more_fuel; lia | intros; apply IHc; [lia|easy]].
    + intros [|fuel'] lex Hle; [lia|]. rewrite !parseOneof_eq.
      destruct (negb (text lex == "oneof")); [reflexivity|].
      apply try_more_fuel; [apply IHc; lia | reflexivity].
Qed.

Lemma parse_loop_more_fuel (fuel : nat) :
  forall fuel' pkg service messages lex,
    (fuel <= fuel')%nat ->
    parse_loop fuel pkg service messages lex <> OutOfFuel ->
    parse_loop fuel' pkg service messages lex =
    parse_loop fuel pkg service messages lex.
Proof.
  induction fuel as [|fuel IH]; intros [|fuel'] pkg service messages lex Hle;
    try easy; try lia.
  simpl.
  destruct (token lex =? EOF); [reflexivity|].
  destruct (parseComments lex) as [comments lex'].
  destruct (text lex' == "package").
  { apply try_more_fuel; [reflexivity | intros; apply IH; [lia|easy]]. }
  destruct (text lex' == "service").
  { apply try_more_fuel;
      [apply parseService_more_fuel; lia | intros; apply IH; [lia|easy]]. }
  destruct (text lex' == "message").
  { apply try_more_fuel;
      [apply (proj1 (message_productions_more_fuel fuel)); lia
      | intros; apply IH; [lia|easy]]. }
  apply IH; lia.
Qed.

(** Once [Parse] has returned a tree or an error within some budget, it
    returns the same with every larger budget. *)
Lemma Parse_more_fuel (fuel fuel' : nat) (input : lexer) :
  (fuel <= fuel')%nat ->
  Parse fuel input <> OutOfFuel ->
  Parse fuel' input = Parse fuel input.
Proof. apply parse_loop_more_fuel. Qed.

(** ** The comment collector *)

Lemma parseComments_loop_run (lex : lexer) :
  forall s : list string,
  exists run : list Token,
    lex = run ++ snd (parseComments_loop s lex) /\
    Forall (fun t => tok t = Comment) run /\
    fst (parseComments_loop s lex) = s ++ map lit run /\
    token (snd (parseComments_loop s lex)) <> Comment.
Proof.
  induction lex as [|t rest IH]; intros s; rewrite parseComments_loop_eq.
  - exists []. simpl. rewrite app_nil_r. repeat split; try constructor.
    discriminate.
  - simpl token. destruct (tok t =? Comment) eqn:E.
    + apply Z.eqb_eq in E. simpl next. simpl text.
      destruct (IH (s ++ [lit t])) as (run & Hlex & Hrun & Hfst & Htok).
      exists (t :: run). repeat split.
      * simpl. now rewrite <- Hlex.
      * now constructor.
      * rewrite Hfst, <- app_assoc. reflexivity.
      * exact Htok.
    + apply Z.eqb_neq in E. exists []. simpl. rewrite app_nil_r.
      repeat split; try constructor. exact E.
Qed.

Lemma parseComments_not_comment (lex : lexer) :
  token lex <> Comment -> parseComments lex = ([], lex).
Proof.
  intros H. unfold parseComments. rewrite parseComments_loop_eq.
  apply Z.eqb_neq in H. now rewrite H.
Qed.

(** C9: the comment collector returns the texts of the longest run of
    comment tokens that starts at the cursor, in source order, and leaves the
    cursor on the first token that is not a comment; on a token that is not
    a comment it returns the empty sequence and does not move; its result is
    determined by the cursor alone, so a second call right after the first
    finds nothing more. *)
Theorem parseComments_maximal_run (lex : lexer) :
  (exists run : list Token,
      lex = run ++ snd (parseComments lex) /\
      Forall (fun t => tok t = Comment) run /\
      fst (parseComments lex) = map lit run /\
      token (snd (parseComments lex)) <> Comment) /\
  (token lex <> Comment -> parseComments lex = ([], lex)) /\
  parseComments (snd (parseComments lex)) = ([], snd (parseComments lex)).
Proof.
  pose proof (parseComments_loop_run lex []) as (run & H1 & H2 & H3 & H4).
  fold (parseComments lex) in H1, H3, H4.
  split; [|split].
  - exists run. auto.
  - apply parseComments_not_comment.
  - now apply parseComments_not_comment.
Qed.

Lemma parseComments_maximal_run_witness :
  parseComments [ident "bytes"; ident "binary"] =
  ([], [ident "bytes"; ident "binary"]).
Proof.
  apply (proj1 (proj2 (parseComments_maximal_run
                         [ident "bytes"; ident "binary"]))).
  discriminate.
Defined.

(** The third case of [TestParseComments]. *)
Example parseComments_test_lines :
  parseComments
    [comment "// binary is an image binary. Required."; comment "// hogehoge";
     ident "bytes"; ident "binary"; punct "="; int "2"; punct "["] =
  (["// binary is an image binary. Required."; "// hogehoge"],
   [ident "bytes"; ident "binary"; punct "="; int "2"; punct "["]).
Proof. reflexivity. Qed.

(** ** Body elements and their leading comment *)




Lemma parseComments_at_comment (lex : lexer) :
  token lex = Comment -> fst (parseComments lex) <> [].
Proof.
  intros H. unfold parseComments. rewrite parseComments_loop_eq, H. simpl.
  destruct (parseComments_loop_run (next lex) [text lex])
    as (run & _ & _ & Hfst & _).
  rewrite Hfst. discriminate.
Qed.

(** Hence every element that the message-body production collects carries
    at least one comment. *)
Lemma body_elements_commented (fuel : nat) :
  forall fields messages enums oneofs lex fs ms es os rest,
    parseMessageContent_loop fuel fields messages enums oneofs lex =
    Ok (fs, ms, es, os) rest ->
    Forall (fun f => Field_Comments f <> []) fields ->
    Forall (fun m => Message_Comments m <> []) messages ->
    Forall (fun e => Enum_Comments e <> []) enums ->
    Forall (fun o => Oneof_Comments o <> []) oneofs ->
    Forall (fun f => Field_Comments f <> []) fs /\
    Forall (fun m => Message_Comments m <> []) ms /\
    Forall (fun e => Enum_Comments e <> []) es /\
    Forall (fun o => Oneof_Comments o <> []) os.
Proof.
  induction fuel as [|fuel IH];
    intros fields messages enums oneofs lex fs ms es os rest H Hf Hm He Ho;
    [discriminate|].
  rewrite parseMessageContent_loop_eq in H.
  destruct (text lex == "}"); [injection H as <- <- <- <- _; auto|].
  destruct (token lex =? Comment) eqn:Hc; [|discriminate]. simpl in H.
  apply Z.eqb_eq, parseComments_at_comment in Hc.
  destruct (parseComments lex) as [comments lex']. simpl in Hc.
  assert (Hne : forall l : list string, l ++ comments <> []).
  { intros l E. apply app_eq_nil in E. now destruct E. }
  destruct (text lex' == "message").
  { destruct (parseMessage fuel lex'); [|discriminate..].
    apply IH in H; auto.
    apply Forall_app; split; auto. repeat constructor. apply Hne. }
  destruct (text lex' == "enum").
  { destruct (parseEnum fuel lex'); [|discriminate..].
    apply IH in H; auto.
    apply Forall_app; split; auto. repeat constructor. apply Hne. }
  destruct (text lex' == "oneof").
  { destruct (parseOneof fuel lex'); [|discriminate..].
    apply IH in H; auto.
    apply Forall_app; split; auto. repeat constructor. apply Hne. }
  destruct (parseField fuel lex'); [|discriminate..].
  apply IH in H; auto.
  apply Forall_app; split; auto. repeat constructor. apply Hne.
Qed.

(** ** What the productions leave of the token stream *)

Section Remaining.

Variable P : Token -> Prop.

Lemma Forall_next (lex : lexer) : Forall P lex -> Forall P (next lex).
Proof.
  destruct lex as [|t rest]; simpl; [auto|]. now inversion 1.
Qed.

Lemma Forall_parseComments (lex : lexer) :
  Forall P lex -> Forall P (snd (parseComments lex)).
Proof.
  intros H.
  destruct (parseComments_loop_run lex []) as (run & Hlex & _).
  fold (parseComments lex) in Hlex. rewrite Hlex in H.
  now apply Forall_app in H.
Qed.

Lemma Forall_parseType_dots (s : string) (lex : lexer) :
  Forall P lex -> Forall P (snd (parseType_dots s lex)).
Proof.
  funelim (parseType_dots s lex); intros HP; [|exact HP].
  match goal with IH : _ -> Forall P _ |- _ => apply IH end.
  now do 2 apply Forall_next.
Qed.

Lemma Forall_parseType (lex : lexer) :
  Forall P lex -> Forall P (snd (parseType lex)).
Proof.
  funelim (parseType lex); intros HP.
  - match goal with IH : _ -> Forall P _ |- _ =>
      specialize (IH (Forall_next _ HP)) end.
    destruct (parseType (next lex)); assumption.
  - pose proof (Forall_parseType_dots (text lex) (next lex)
                  (Forall_next _ HP)) as Hd.
    destruct (parseType_dots (text lex) (next lex)); assumption.
Qed.

End Remaining.

Lemma text_differs (s : string) (lex : lexer) :
  s <> "" -> Forall (fun t => lit t <> s) lex -> (text lex == s) = false.
Proof.
  intros Hs H. apply String.eqb_neq.
  destruct lex as [|t rest]; simpl; [congruence|].
  now inversion H.
Qed.

(** ** Loops that never reach their terminator *)

Lemma parseField_loop_unterminated (fuel : nat) :
  forall (field : Field) (lex : lexer),
    Forall (fun t => lit t <> ";") lex ->
    parseField_loop fuel field lex = OutOfFuel.
Proof.
  induction fuel as [|fuel IH]; intros field lex H; [reflexivity|].
  simpl. rewrite (text_differs ";" lex) by (discriminate || assumption).
  destruct (Field_Type field).
  - destruct (Field_Name field == ""); apply IH, Forall_next, H.
  - pose proof (Forall_parseType _ lex H) as Ht.
    destruct (parseType lex). now apply IH.
Qed.

Lemma parseRPC_loop_unterminated (fuel : nat) :
  forall (rpc : RPC) (lex : lexer),
    Forall (fun t => lit t <> "}") lex ->
    parseRPC_loop fuel rpc lex = OutOfFuel.
Proof.
  induction fuel as [|fuel IH]; intros rpc lex H; [reflexivity|].
  simpl. rewrite (text_differs "}" lex) by (discriminate || assumption).
  destruct (RPC_Name rpc == ""); [apply IH, Forall_next, H|].
  destruct (RPC_Argument rpc).
  - destruct (RPC_Return rpc); [apply IH, Forall_next, H|].
    pose proof (Forall_parseType _ _ (Forall_next _ _ (Forall_next _ _ H)))
      as Ht.
    destruct (parseType (next (next lex))).
    now apply IH, Forall_next, Forall_next.
  - pose proof (Forall_parseType _ _ (Forall_next _ _ H)) as Ht.
    destruct (parseType (next lex)).
    now apply IH, Forall_next.
Qed.

Lemma parseEnumField_loop_unterminated (fuel : nat) :
  forall lex : lexer,
    Forall (fun t => lit t <> ";") lex ->
    parseEnumField_loop fuel lex = OutOfFuel.
Proof.
  induction fuel as [|fuel IH]; intros lex H; [reflexivity|].
  simpl. rewrite (text_differs ";" lex) by (discriminate || assumption).
  apply IH, Forall_next, H.
Qed.

(** Evaluates the total productions on the closed token streams of a goal. *)
Ltac eval_total :=
  repeat match goal with
    | |- context [parseComments ?l] =>
        let v := eval vm_compute in (parseComments l) in
        change (parseComments l) with v
    | |- context [parseType ?l] =>
        let v := eval vm_compute in (parseType l) in
        change (parseType l) with v
    end.

Ltac no_terminator := repeat constructor; discriminate.

(** C2 fails on the code: when the input ends before the [;] of a field, the
    [}] of an RPC or the [;] of an enum field, the loop of that production
    stays at end-of-input and the whole-file parse never returns, whatever
    the step budget. *)
Theorem parse_never_returns_without_terminator (fuel : nat) :
  Parse fuel unterminated_field_input = OutOfFuel /\
  Parse fuel unterminated_rpc_input = OutOfFuel /\
  Parse fuel unterminated_enum_field_input = OutOfFuel.
Proof.
  unfold Parse, parse. repeat split.
  - destruct fuel as [|[|[|fuel]]]; try reflexivity.
    simpl. eval_total. simpl. eval_total. simpl.
    unfold parseField. rewrite parseField_loop_unterminated; [reflexivity|].
    no_terminator.
  - destruct fuel as [|[|fuel]]; try reflexivity.
    simpl. eval_total. simpl.
    unfold parseService, parseServiceContent. simpl. eval_total. simpl.
    unfold parseRPC. rewrite parseRPC_loop_unterminated; [reflexivity|].
    no_terminator.
  - destruct fuel as [|[|[|[|fuel]]]]; try reflexivity.
    simpl. eval_total. simpl. eval_total. simpl.
    unfold parseEnum, parseEnumContent. simpl.
    unfold parseEnumField. simpl. eval_total. simpl.
    rewrite parseEnumField_loop_unterminated; [reflexivity|].
    no_terminator.
Qed.

(** ** Positions are invisible to the productions *)

Lemma token_unplaced (lex : lexer) : token (unplaced lex) = token lex.
Proof. now destruct lex. Qed.

Lemma text_unplaced (lex : lexer) : text (unplaced lex) = text lex.
Proof. now destruct lex. Qed.

Lemma next_unplaced (lex : lexer) : next (unplaced lex) = unplaced (next lex).
Proof. now destruct lex. Qed.

Lemma unplaced_visible (lex1 lex2 : lexer) :
  map visible lex1 = map visible lex2 -> unplaced lex1 = unplaced lex2.
Proof.
  revert lex2. induction lex1 as [|t1 l1 IH]; intros [|t2 l2] H;
    try discriminate; [reflexivity|].
  simpl in *. injection H as Htok Hlit Hrest.
  now rewrite Htok, Hlit, (IH _ Hrest).
Qed.

Lemma parseComments_loop_unplaced (lex : lexer) :
  forall s : list string,
    parseComments_loop s (unplaced lex) =
    (fst (parseComments_loop s lex), unplaced (snd (parseComments_loop s lex))).
Proof.
  induction lex as [|t rest IH]; intros s.
  - reflexivity.
  - rewrite (parseComments_loop_eq s (unplaced (t :: rest))).
    rewrite (parseComments_loop_eq s (t :: rest)).
    rewrite token_unplaced, text_unplaced.
    destruct (token (t :: rest) =? Comment); [apply IH | reflexivity].
Qed.

Lemma parseComments_unplaced (lex : lexer) :
  parseComments (unplaced lex) =
  (fst (parseComments lex), unplaced (snd (parseComments lex))).
Proof. apply parseComments_loop_unplaced. Qed.

Lemma parseType_dots_unplaced (s : string) (lex : lexer) :
  parseType_dots s (unplaced lex) =
  (fst (parseType_dots s lex), unplaced (snd (parseType_dots s lex))).
Proof.
  funelim (parseType_dots s lex); rewrite parseType_dots_eq;
    rewrite text_unplaced;
    match goal with E : (_ == _) = _ |- _ => rewrite E end.
  - rewrite !next_unplaced, text_unplaced. assumption.
  - reflexivity.
Qed.

Lemma parseType_unplaced (lex : lexer) :
  parseType (unplaced lex) =
  (fst (parseType lex), unplaced (snd (parseType lex))).
Proof.
  funelim (parseType lex); rewrite parseType_eq; rewrite text_unplaced;
    match goal with E : (_ == _) = _ |- _ => rewrite E end;
    rewrite next_unplaced.
  - match goal with IH : parseType _ = _ |- _ => rewrite IH end.
    destruct (parseType (next lex)); reflexivity.
  - rewrite parseType_dots_unplaced.
    destruct (parseType_dots (text lex) (next lex)); reflexivity.
Qed.

Ltac unplace :=
  rewrite ?next_unplaced, ?token_unplaced, ?text_unplaced,
    ?parseComments_unplaced, ?parseType_unplaced.

Lemma parseRPC_loop_unplaced (fuel : nat) :
  forall (rpc : RPC) (lex : lexer),
    parseRPC_loop fuel rpc (unplaced lex) =
    on_rest unplaced (parseRPC_loop fuel rpc lex).
Proof.
  induction fuel as [|fuel IH]; intros rpc lex; [reflexivity|].
  simpl. unplace.
  destruct (text lex == "}"); [reflexivity|].
  destruct (RPC_Name rpc == ""); [apply IH|].
  destruct (RPC_Argument rpc).
  - destruct (RPC_Return rpc); [apply IH|].
    destruct (parseType (next (next lex))); simpl. unplace. apply IH.
  - destruct (parseType (next lex)); simpl. unplace. apply IH.
Qed.

Lemma parseRPC_unplaced (fuel : nat) (lex : lexer) :
  parseRPC fuel (unplaced lex) = on_rest unplaced (parseRPC fuel lex).
Proof.
  unfold parseRPC. rewrite parseRPC_loop_unplaced.
  destruct (parseRPC_loop fuel _ lex); simpl; unplace; reflexivity.
Qed.

Lemma parseServiceContent_loop_unplaced (fuel : nat) :
  forall (rpcs : list RPC) (lex : lexer),
    parseServiceContent_loop fuel rpcs (unplaced lex) =
    on_rest unplaced (parseServiceContent_loop fuel rpcs lex).
Proof.
  induction fuel as [|fuel IH]; intros rpcs lex; [reflexivity|].
  simpl. unplace.
  destruct (text lex == "}"); [reflexivity|].
  destruct (negb (token lex =? Comment)); [reflexivity|].
  destruct (parseComments lex) as [comments lex']; simpl. unplace.
  destruct (text lex' == "rpc"); [|reflexivity].
  rewrite parseRPC_unplaced.
  destruct (parseRPC fuel (next lex')); simpl; [apply IH | reflexivity..].
Qed.

Lemma parseService_unplaced (fuel : nat) (lex : lexer) :
  parseService fuel (unplaced lex) = on_rest unplaced (parseService fuel lex).
Proof.
  unfold parseService, parseServiceContent. unplace.
  destruct (negb (text lex == "service")); [reflexivity|].
  rewrite parseServiceContent_loop_unplaced.
  destruct (parseServiceContent_loop fuel _ _); simpl; unplace; reflexivity.
Qed.

Lemma parseField_loop_unplaced (fuel : nat) :
  forall (field : Field) (lex : lexer),
    parseField_loop fuel field (unplaced lex) =
    on_rest unplaced (parseField_loop fuel field lex).
Proof.
  induction fuel as [|fuel IH]; intros field lex; [reflexivity|].
  simpl. unplace.
  destruct (text lex == ";"); [reflexivity|].
  destruct (Field_Type field).
  - destruct (Field_Name field == ""); apply IH.
  - destruct (parseType lex); simpl. apply IH.
Qed.

Lemma parseField_unplaced (fuel : nat) (lex : lexer) :
  parseField fuel (unplaced lex) = on_rest unplaced (parseField fuel lex).
Proof.
  unfold parseField. rewrite parseField_loop_unplaced.
  destruct (parseField_loop fuel _ lex); simpl; unplace; reflexivity.
Qed.

Lemma parseEnumField_loop_unplaced (fuel : nat) :
  forall lex : lexer,
    parseEnumField_loop fuel (unplaced lex) =
    on_rest unplaced (parseEnumField_loop fuel lex).
Proof.
  induction fuel as [|fuel IH]; intros lex; [reflexivity|].
  simpl. unplace.
  destruct (text lex == ";"); [reflexivity | apply IH].
Qed.

Lemma parseEnumField_unplaced (fuel : nat) (lex : lexer) :
  parseEnumField fuel (unplaced lex) =
  on_rest unplaced (parseEnumField fuel lex).
Proof.
  unfold parseEnumField. unplace.
  destruct (negb (token lex =? Comment)); [reflexivity|].
  destruct (parseComments lex) as [comments lex']; simpl. unplace.
  rewrite parseEnumField_loop_unplaced.
  destruct (parseEnumField_loop fuel lex'); simpl; unplace; reflexivity.
Qed.

Lemma parseEnumContent_loop_unplaced (fuel : nat) :
  forall (fields : list EnumField) (lex : lexer),
    parseEnumContent_loop fuel fields (unplaced lex) =
    on_rest unplaced (parseEnumContent_loop fuel fields lex).
Proof.
  induction fuel as [|fuel IH]; intros fields lex; [reflexivity|].
  simpl. unplace.
  destruct (text lex == "}"); [reflexivity|].
  rewrite parseEnumField_unplaced.
  destruct (parseEnumField fuel lex); simpl; [apply IH | reflexivity..].
Qed.

Lemma parseEnum_unplaced (fuel : nat) (lex : lexer) :
  parseEnum fuel (unplaced lex) = on_rest unplaced (parseEnum fuel lex).
Proof.
  unfold parseEnum, parseEnumContent. unplace.
  destruct (negb (text lex == "enum")); [reflexivity|].
  rewrite parseEnumContent_loop_unplaced.
  destruct (parseEnumContent_loop fuel _ _); simpl; unplace; reflexivity.
Qed.

Lemma message_productions_unplaced (fuel : nat) :
  (forall lex,
      parseMessage fuel (unplaced lex) =
      on_rest unplaced (parseMessage fuel lex)) /\
  (forall fields messages enums oneofs lex,
      parseMessageContent_loop fuel fields messages enums oneofs
        (unplaced lex) =
      on_rest unplaced
        (parseMessageContent_loop fuel fields messages enums oneofs lex)) /\
  (forall lex,
      parseOneof fuel (unplaced lex) =
      on_rest unplaced (parseOneof fuel lex)).
Proof.
  induction fuel as [|fuel (IHm & IHc & IHo)].
  - repeat split; intros; rewrite ?parseMessage_eq, ?parseOneof_eq;
      unplace; try reflexivity.
    + destruct (negb (text lex == "message")); reflexivity.
    + destruct (negb (text lex == "oneof")); reflexivity.
  - repeat split; intros.
    + rewrite !parseMessage_eq. unplace. unfold parseMessageContent.
      destruct (negb (text lex == "message")); [reflexivity|].
      rewrite IHc.
      destruct (parseMessageContent_loop fuel _ _ _ _ _)
        as [[[[fs ns] es] os] lex'| |]; simpl; unplace; reflexivity.
    + rewrite !parseMessageContent_loop_eq. unplace.
      destruct (text lex == "}"); [reflexivity|].
      destruct (negb (token lex =? Comment)); [reflexivity|].
      destruct (parseComments lex) as [comments lex']; simpl. unplace.
      destruct (text lex' == "message").
      { rewrite IHm. destruct (parseMessage fuel lex'); simpl;
          [apply IHc | reflexivity..]. }
      destruct (text lex' == "enum").
      { rewrite parseEnum_unplaced. destruct (parseEnum fuel lex'); simpl;
          [apply IHc | reflexivity..]. }
      destruct (text lex' == "oneof").
      { rewrite IHo. destruct (parseOneof fuel lex'); simpl;
          [apply IHc | reflexivity..]. }
      rewrite parseField_unplaced. destruct (parseField fuel lex'); simpl;
        [apply IHc | reflexivity..].
    + rewrite !parseOneof_eq. unplace. unfold parseMessageContent.
      destruct (negb (text lex == "oneof")); [reflexivity|].
      rewrite IHc.
      destruct (parseMessageContent_loop fuel _ _ _ _ _)
        as [[[[fs ns] es] os] lex'| |]; simpl; unplace; reflexivity.
Qed.

Lemma parse_loop_unplaced (fuel : nat) :
  forall pkg service messages lex,
    parse_loop fuel pkg service messages (unplaced lex) =
    on_rest unplaced (parse_loop fuel pkg service messages lex).
Proof.
  induction fuel as [|fuel IH]; intros pkg service messages lex;
    [reflexivity|].
  simpl. unplace.
  destruct (token lex =? EOF); [reflexivity|].
  destruct (parseComments lex) as [comments lex']; simpl. unplace.
  destruct (text lex' == "package") eqn:Epkg.
  { unfold parsePackage. unplace. rewrite Epkg. simpl. unplace. apply IH. }
  destruct (text lex' == "service").
  { rewrite parseService_unplaced. destruct (parseService fuel lex'); simpl;
      [apply IH | reflexivity..]. }
  destruct (text lex' == "message").
  { rewrite (proj1 (message_productions_unplaced fuel)).
    destruct (parseMessage fuel lex'); simpl; [apply IH | reflexivity..]. }
  apply IH.
Qed.

Lemma outcome_on_rest {A : Type} (f : lexer -> lexer) (r : result A) :
  outcome (on_rest f r) = outcome r.
Proof. now destruct r. Qed.

(** C3, as the specification words it, fails: [message M { }] parses to the
    same [Message] on the first line of a file and on its second line, so
    nothing in the node tells where its first token stood. *)
Lemma message_node_without_position :
  outcome (parseMessage 2 message_on_line_1) =
  outcome (parseMessage 2 message_on_line_2) /\
  current_position message_on_line_1 <> current_position message_on_line_2 /\
  ~ (exists position_of : Message -> Position,
        forall lex m rest,
          In lex [message_on_line_1; message_on_line_2] ->
          parseMessage 2 lex = Ok m rest ->
          current_position lex = Some (position_of m)).
Proof.
  split; [reflexivity|]. split; [discriminate|].
  intros (position_of & H).
  assert (H1 : parseMessage 2 message_on_line_1 =
               Ok (mkMessage [] "M" [] [] [] []) []) by reflexivity.
  assert (H2 : parseMessage 2 message_on_line_2 =
               Ok (mkMessage [] "M" [] [] [] []) []) by reflexivity.
  apply H in H1; [|now left]. apply H in H2; [|now right; left].
  simpl in H1, H2. congruence.
Qed.

(** C3 (amended): the nodes carry no position.  Two inputs whose tokens have
    the same classes and texts, wherever they stand in their files, give the
    same outcome (the same tree, the same error, or no return within the same
    budget), at the message entry point and for the whole file. *)
Theorem nodes_carry_no_position (fuel : nat) (lex1 lex2 : lexer)
  (Hsame : map visible lex1 = map visible lex2) :
  outcome (parseMessage fuel lex1) = outcome (parseMessage fuel lex2) /\
  outcome (Parse fuel lex1) = outcome (Parse fuel lex2).
Proof.
  apply unplaced_visible in Hsame. split.
  - rewrite <- (outcome_on_rest unplaced (parseMessage fuel lex1)).
    rewrite <- (outcome_on_rest unplaced (parseMessage fuel lex2)).
    rewrite <- !(proj1 (message_productions_unplaced fuel)).
    now rewrite Hsame.
  - unfold Parse, parse.
    rewrite <- (outcome_on_rest unplaced (parse_loop fuel _ _ _ lex1)).
    rewrite <- (outcome_on_rest unplaced (parse_loop fuel _ _ _ lex2)).
    rewrite <- !parse_loop_unplaced.
    now rewrite Hsame.
Qed.

Lemma nodes_carry_no_position_witness :
  outcome (parseMessage 2 message_on_line_1) =
  outcome (parseMessage 2 message_on_line_2) /\
  outcome (Parse 3 message_on_line_1) = outcome (Parse 3 message_on_line_2).
Proof.
  split.
  - apply (nodes_carry_no_position 2 message_on_line_1 message_on_line_2).
    reflexivity.
  - apply (nodes_carry_no_position 3 message_on_line_1 message_on_line_2).
    reflexivity.
Defined.

(** ** The map field scenario *)

(** C4, as the specification words it, fails: no step budget makes
    [message M { map<int32, string> my_map = 4; }] parse to a [Message]. *)
Lemma map_field_scenario_rejected :
  ~ (exists fuel m rest, parseMessage fuel map_field_input = Ok m rest).
Proof.
  intros (fuel & m & rest & H).
  destruct fuel as [|[|fuel]]; discriminate H.
Qed.

(** C4 (amended): at the message entry point the input
    [message M { map<int32, string> my_map = 4; }] is rejected with the error
    [not found comment, text=map], the statement in the body having no
    comment before it; no [Message] is returned. *)
Theorem map_field_scenario (fuel : nat) :
  parseMessage (S (S fuel)) map_field_input =
  Err "not found comment, text=map".
Proof. reflexivity. Qed.

(** With a comment before it the statement is read as an ordinary field: the
    tree has no node for map fields. *)
Example commented_map_field :
  parseMessage 20
    [ident "message"; ident "M"; punct "{"; comment "// m";
     ident "map"; punct "<"; ident "int32"; punct ","; ident "string";
     punct ">"; ident "my_map"; punct "="; int "4"; punct ";";
     punct "}"] =
  Ok (mkMessage [] "M"
        [mkField ["// m"] (Some (mkType "map" false)) "<"] [] [] [])
     [].
Proof. reflexivity. Qed.

(** ** The file level *)

(** The productions that have no error to return. *)

Lemma parseField_no_error (fuel : nat) (lex : lexer) (e : string) :
  parseField fuel lex <> Err e.
Proof.
  unfold parseField.
  assert (H : forall field lex, parseField_loop fuel field lex <> Err e).
  { induction fuel as [|fuel IH]; intros field l; [discriminate|]. simpl.
    destruct (text l == ";"); [discriminate|].
    destruct (Field_Type field).
    - destruct (Field_Name field == ""); apply IH.
    - destruct (parseType l). apply IH. }
  specialize (H (mkField [] None "") lex).
  destruct (parseField_loop fuel _ lex); congruence.
Qed.

Lemma parseRPC_no_error (fuel : nat) (lex : lexer) (e : string) :
  parseRPC fuel lex <> Err e.
Proof.
  unfold parseRPC.
  assert (H : forall rpc lex, parseRPC_loop fuel rpc lex <> Err e).
  { induction fuel as [|fuel IH]; intros rpc l; [discriminate|]. simpl.
    destruct (text l == "}"); [discriminate|].
    destruct (RPC_Name rpc == ""); [apply IH|].
    destruct (RPC_Argument rpc).
    - destruct (RPC_Return rpc); [apply IH|].
      destruct (parseType (next (next l))). apply IH.
    - destruct (parseType (next l)). apply IH. }
  specialize (H (mkRPC [] "" None None) lex).
  destruct (parseRPC_loop fuel _ lex); congruence.
Qed.

Lemma parsePackage_no_error (lex : lexer) (e : string) :
  text lex = "package" -> parsePackage lex <> Err e.
Proof. intros H. unfold parsePackage. rewrite H. discriminate. Qed.

(** The [default] branch of the loop of [parse]. *)
Lemma parse_loop_skip (fuel : nat) (pkg : string) (service : Service)
  (messages : list Message) (lex : lexer) :
  token lex <> EOF ->
  text (snd (parseComments lex)) <> "package" ->
  text (snd (parseComments lex)) <> "service" ->
  text (snd (parseComments lex)) <> "message" ->
  parse_loop (S fuel) pkg service messages lex =
  parse_loop fuel pkg service messages (next (snd (parseComments lex))).
Proof.
  intros Hmore Hpackage Hservice Hmessage.
  rewrite parse_loop_eq by assumption. cbv zeta.
  apply String.eqb_neq in Hpackage, Hservice, Hmessage.
  now rewrite Hpackage, Hservice, Hmessage.
Qed.



(** Conversely, an error of the whole-file parse is always the error of a
    service or message production, handed on unchanged. *)
Lemma parse_error_origin (fuel : nat) :
  forall pkg service messages lex e,
    parse_loop fuel pkg service messages lex = Err e ->
    exists fuel' lex',
      (text lex' = "service" /\ parseService fuel' lex' = Err e) \/
      (text lex' = "message" /\ parseMessage fuel' lex' = Err e).
Proof.
  induction fuel as [|fuel IH]; intros pkg service messages lex e H;
    [discriminate|].
  destruct (Z.eq_dec (token lex) EOF) as [Heof|Hmore].
  - simpl in H. apply Z.eqb_eq in Heof. rewrite Heof in H. discriminate.
  - rewrite parse_loop_eq in H by assumption. cbv zeta in H.
    destruct (text (snd (parseComments lex)) == "package") eqn:Epkg.
    { unfold parsePackage in H. rewrite Epkg in H. simpl in H. eauto. }
    destruct (text (snd (parseComments lex)) == "service") eqn:Esvc.
    { apply String.eqb_eq in Esvc.
      destruct (parseService fuel _) eqn:Es in H; [eauto| |discriminate].
      injection H as <-. eauto. }
    destruct (text (snd (parseComments lex)) == "message") eqn:Emsg.
    { apply String.eqb_eq in Emsg.
      destruct (parseMessage fuel _) eqn:Em in H; [eauto| |discriminate].
      injection H as <-. eauto. }
    eauto.
Qed.

(** A file in which no token reads [package], [service] or [message] parses,
    with a budget above its length, to whatever had been collected. *)
Lemma parse_without_keywords (fuel : nat) :
  forall pkg service messages lex,
    Forall (fun t => lit t <> "package") lex ->
    Forall (fun t => lit t <> "service") lex ->
    Forall (fun t => lit t <> "message") lex ->
    (length lex < fuel)%nat ->
    exists rest,
      parse_loop fuel pkg service messages lex =
      Ok (mkProtocolBuffer pkg (Some service) messages) rest.
Proof.
  induction fuel as [|fuel IH]; intros pkg service messages lex Hp Hs Hm Hlen;
    [lia|].
  destruct (Z.eq_dec (token lex) EOF) as [Heof|Hmore].
  - simpl. apply Z.eqb_eq in Heof. rewrite Heof. eauto.
  - rewrite parse_loop_skip; try assumption.
    + apply IH; try now apply Forall_next, Forall_parseComments.
      destruct (parseComments_loop_run lex []) as (run & Hlex & _).
      fold (parseComments lex) in Hlex.
      assert (length lex = length run + length (snd (parseComments lex)))%nat
        as Hsplit by (rewrite Hlex at 1; apply length_app).
      destruct lex as [|t lex]; [now elim Hmore|].
      destruct (snd (parseComments (t :: lex))); simpl in *; lia.
    + apply String.eqb_neq, text_differs;
        [discriminate | now apply Forall_parseComments].
    + apply String.eqb_neq, text_differs;
        [discriminate | now apply Forall_parseComments].
    + apply String.eqb_neq, text_differs;
        [discriminate | now apply Forall_parseComments].
Qed.

(** ** The root node *)

(** C7, as the specification words it, fails: of [service A { } service B { }]
    only [B] is in the root, which is the very root of [service B { }] alone
    and of that file behind an import and an option statement. *)
Lemma root_keeps_one_service :
  Parse 12 two_services_input =
    Ok (mkProtocolBuffer "" (Some (mkService [] "B" [])) []) [] /\
  Parse 12 service_B_input =
    Ok (mkProtocolBuffer "" (Some (mkService [] "B" [])) []) [] /\
  Parse 12 import_option_input =
    Ok (mkProtocolBuffer "" (Some (mkService [] "B" [])) []) [].
Proof. repeat split. Qed.

Lemma parse_loop_keeps_messages (fuel : nat) :
  forall pkg service messages lex pb rest,
    parse_loop fuel pkg service messages lex = Ok pb rest ->
    exists s later, Service_ pb = Some s /\ Messages pb = messages ++ later.
Proof.
  induction fuel as [|fuel IH]; intros pkg service messages lex pb rest H;
    [discriminate|].
  destruct (Z.eq_dec (token lex) EOF) as [Heof|Hmore].
  - simpl in H. apply Z.eqb_eq in Heof. rewrite Heof in H.
    injection H as <- _. exists service, []. now rewrite app_nil_r.
  - rewrite parse_loop_eq in H by assumption. cbv zeta in H.
    destruct (text (snd (parseComments lex)) == "package").
    { destruct (parsePackage _); [eauto | discriminate..]. }
    destruct (text (snd (parseComments lex)) == "service").
    { destruct (parseService fuel _); [eauto | discriminate..]. }
    destruct (text (snd (parseComments lex)) == "message"); [|eauto].
    destruct (parseMessage fuel _); [|discriminate..].
    apply IH in H. destruct H as (s & later & Hs & Hm).
    rewrite <- app_assoc in Hm. eauto.
Qed.

(** ** The single-construct entry points *)

(** C8: on the empty input the message entry point returns the error
    [not found message] and no node, whatever the step budget, and the option
    entry point returns the error of its missing keyword and no node. *)
Theorem empty_input_rejected (fuel : nat) :
  parseMessage fuel [] = Err "not found message, text=" /\
  ParseOption [] = inr (ExpectedKeyword "option").
Proof. split; [destruct fuel|]; reflexivity. Qed.

(** The option production on [option (my_option).a = true;], a fixture of
    the specification. *)
Example ParseOption_fixture :
  ParseOption option_input =
  inl (mkOption "(my_option).a" "true" (Some origin), []).
Proof. reflexivity. Qed.

(** ** Oneof bodies *)

(** C10: the oneof production runs the message-body production on its body
    and keeps the fields only; the nested messages, enums and oneofs that the
    body production collected are dropped and no error is raised for them. *)
Theorem parseOneof_keeps_fields_only (fuel : nat) (lex lex' : lexer)
  (fields : list Field) (messages : list Message) (enums : list Enum)
  (oneofs : list Oneof)
  (Hkeyword : text lex = "oneof")
  (Hbody : parseMessageContent fuel (next (next (next lex))) =
           Ok (fields, messages, enums, oneofs) lex') :
  parseOneof (S fuel) lex =
  Ok (mkOneof [] (text (next lex)) fields) (next lex').
Proof.
  rewrite parseOneof_eq, Hkeyword, Hbody. reflexivity.
Qed.

Lemma parseOneof_keeps_fields_only_witness :
  parseOneof 12 oneof_with_message_input =
  Ok (mkOneof [] "foo"
        [mkField ["// name"] (Some (mkType "string" false)) "name"])
     [].
Proof.
  apply (parseOneof_keeps_fields_only 11 oneof_with_message_input [punct "}"]
           [mkField ["// name"] (Some (mkType "string" false)) "name"]
           [mkMessage ["// nested"] "N" [] [] [] []] [] []);
    reflexivity.
Defined.

(** ** Type names *)

Lemma parseType_dots_qualified (pairs : list (Token * Token)) :
  forall (s : string) (rest : lexer),
    Forall (fun p => lit (fst p) = ".") pairs ->
    text rest <> "." ->
    parseType_dots s (name_segments pairs ++ rest) = (qualified s pairs, rest).
Proof.
  induction pairs as [|[dot seg] pairs IH]; intros s rest Hdots Hrest;
    rewrite parseType_dots_eq.
  - apply String.eqb_neq in Hrest. simpl. now rewrite Hrest.
  - inversion Hdots as [|? ? Hdot Hdots']; subst. simpl in *.
    rewrite Hdot. simpl. now apply IH.
Qed.

(** X1: [parseType] reads any number of [repeated] words, then one name with
    its dotted segments: the name of the type is the text of the name and of
    every [.] and segment, put together; the type is repeated exactly when at
    least one [repeated] came first; the cursor is left on the token after the
    last segment. *)
Theorem parseType_qualified_name (modifiers : list Token) (name : Token)
  (pairs : list (Token * Token)) (rest : lexer)
  (Hmodifiers : Forall (fun m => lit m = "repeated") modifiers)
  (Hname : lit name <> "repeated")
  (Hdots : Forall (fun p => lit (fst p) = ".") pairs)
  (Hrest : text rest <> ".") :
  parseType (modifiers ++ name :: name_segments pairs ++ rest) =
  (mkType (qualified (lit name) pairs)
     (match modifiers with [] => false | _ :: _ => true end),
   rest).
Proof.
  assert (Hplain :
            parseType (name :: name_segments pairs ++ rest) =
            (mkType (qualified (lit name) pairs) false, rest)).
  { rewrite parseType_eq. simpl text. apply String.eqb_neq in Hname.
    rewrite Hname. simpl next.
    now rewrite parseType_dots_qualified. }
  induction modifiers as [|m modifiers IH]; [exact Hplain|].
  inversion Hmodifiers as [|? ? Hm Hms]; subst.
  rewrite parseType_eq. simpl text. rewrite Hm. simpl.
  destruct modifiers as [|m' modifiers].
  - simpl. now rewrite Hplain.
  - rewrite (IH Hms). reflexivity.
Qed.

Lemma parseType_qualified_name_witness :
  parseType
    [ident "repeated"; ident "foo"; punct "."; ident "Bar"; ident "items";
     punct "="; int "1"; punct ";"] =
  (mkType "foo.Bar" true, [ident "items"; punct "="; int "1"; punct ";"]).
Proof.
  apply (parseType_qualified_name [ident "repeated"] (ident "foo")
           [(punct ".", ident "Bar")]
           [ident "items"; punct "="; int "1"; punct ";"]).
  - repeat constructor.
  - discriminate.
  - repeat constructor.
  - discriminate.
Defined.

(** ** Fields *)

(** Once the type and the name are known the loop skips to the [;]. *)
Lemma parseField_loop_skips (skipped : list Token) :
  forall (fuel : nat) (field : Field) (t : Type_) (semi : Token) (rest : lexer),
    Field_Type field = Some t -> Field_Name field <> "" ->
    Forall (fun x => lit x <> ";") skipped -> lit semi = ";" ->
    (length skipped < fuel)%nat ->
    parseField_loop fuel field (skipped ++ semi :: rest) =
    Ok field (semi :: rest).
Proof.
  induction skipped as [|x skipped IH];
    intros [|fuel] field t semi rest Ht Hn Hskip Hsemi Hfuel;
    simpl in Hfuel; try lia.
  - simpl. now rewrite Hsemi.
  - inversion Hskip as [|? ? Hx Hskip']; subst.
    apply String.eqb_neq in Hx, Hn. simpl. rewrite Hx, Ht, Hn.
    apply String.eqb_neq in Hn.
    apply (IH fuel field t); auto. lia.
Qed.

(** The statement of a field, from its type on. *)
Lemma parseField_statement (fuel : nat) (lex : lexer) (t : Type_)
  (name semi : Token) (skipped : list Token) (rest : lexer) :
  text lex <> ";" ->
  parseType lex = (t, name :: skipped ++ semi :: rest) ->
  lit name <> "" -> lit name <> ";" ->
  Forall (fun x => lit x <> ";") skipped -> lit semi = ";" ->
  (length skipped + 3 <= fuel)%nat ->
  parseField fuel lex = Ok (mkField [] (Some t) (lit name)) rest.
Proof.
  intros Hfirst Htype Hname Hname' Hskip Hsemi Hfuel.
  destruct fuel as [|[|fuel]]; try lia.
  unfold parseField. simpl.
  apply String.eqb_neq in Hfirst, Hname'. rewrite Hfirst, Htype. simpl.
  rewrite Hname'. simpl.
  rewrite (parseField_loop_skips skipped fuel _ t semi rest); auto.
  lia.
Qed.

(** X2: a field statement is read as its type, then its name, then anything
    up to the next [;]: the field number and the options between the name and
    the [;] are passed over and leave nothing in the node, and the cursor ends
    after the [;]. *)
Theorem parseField_type_name_then_skip (fuel : nat) (lex : lexer) (t : Type_)
  (name semi : Token) (skipped : list Token) (rest : lexer)
  (Hfirst : text lex <> ";")
  (Htype : parseType lex = (t, name :: skipped ++ semi :: rest))
  (Hname : lit name <> "" /\ lit name <> ";")
  (Hskipped : Forall (fun x => lit x <> ";") skipped)
  (Hsemi : lit semi = ";")
  (Hfuel : (length skipped + 3 <= fuel)%nat) :
  parseField fuel lex = Ok (mkField [] (Some t) (lit name)) rest.
Proof. destruct Hname. now apply parseField_statement with semi skipped. Qed.

Lemma parseField_type_name_then_skip_witness :
  parseField 8
    [ident "bytes"; ident "binary"; punct "="; int "2"; punct "[";
     ident "deprecated"; punct "]"; punct ";"; punct "}"] =
  Ok (mkField [] (Some (mkType "bytes" false)) "binary") [punct "}"].
Proof.
  apply (parseField_type_name_then_skip 8 _ (mkType "bytes" false)
           (ident "binary") (punct ";")
           [punct "="; int "2"; punct "["; ident "deprecated"; punct "]"]
           [punct "}"]).
  - discriminate.
  - reflexivity.
  - split; discriminate.
  - repeat constructor; discriminate.
  - reflexivity.
  - simpl. lia.
Defined.

Lemma parseField_loop_keeps_type (fuel : nat) :
  forall field lex f rest,
    parseField_loop fuel field lex = Ok f rest ->
    Field_Type field <> None -> Field_Type f <> None.
Proof.
  induction fuel as [|fuel IH]; intros field lex f rest H Ht; [discriminate|].
  simpl in H.
  destruct (text lex == ";"); [now injection H as <- _|].
  destruct (Field_Type field) eqn:E; [|now elim Ht].
  destruct (Field_Name field == "").
  - apply IH in H; [exact H | simpl; rewrite ?E; discriminate].
  - apply IH in H; [exact H | rewrite ?E; discriminate].
Qed.

(** X3: the field that [parseField] returns has no type (a nil pointer in
    the source) exactly when the statement is a bare [;]; in every other case
    the type is set. *)
Theorem parseField_type_missing_iff (fuel : nat) (lex : lexer) (f : Field)
  (rest : lexer) (Hparsed : parseField fuel lex = Ok f rest) :
  Field_Type f = None <-> text lex = ";".
Proof.
  unfold parseField in Hparsed.
  destruct (parseField_loop fuel _ lex) as [f' lex'| |] eqn:Hloop;
    try discriminate.
  injection Hparsed as <- _.
  destruct fuel as [|fuel]; [discriminate|]. simpl in Hloop.
  destruct (text lex == ";") eqn:E.
  - injection Hloop as <- _. apply String.eqb_eq in E. now split.
  - apply String.eqb_neq in E. destruct (parseType lex) as [t l].
    apply parseField_loop_keeps_type in Hloop; [|discriminate].
    split; intros H; [now elim Hloop | now elim E].
Qed.

Lemma parseField_type_missing_iff_witness :
  Field_Type (mkField [] None "") = None <-> text [punct ";"; punct "}"] = ";".
Proof.
  apply (parseField_type_missing_iff 1 [punct ";"; punct "}"]
           (mkField [] None "") [punct "}"]).
  reflexivity.
Defined.

(** X4: [parseField] and [parseRPC] have no error to return: on any input
    they return a node or do not return at all. *)
Theorem field_and_rpc_never_fail (fuel : nat) (lex : lexer) (e : string) :
  parseField fuel lex <> Err e /\ parseRPC fuel lex <> Err e.
Proof. split; [apply parseField_no_error | apply parseRPC_no_error]. Qed.

(** ** Missing terminators *)

(** X5: a field or an enum value with no [;] anywhere in the rest of the
    input, and an RPC with no closing brace anywhere in the rest of the
    input, never return: no step budget is enough, the loop going on at
    end-of-input. *)
Theorem missing_terminator_never_returns (lex : lexer) :
  (Forall (fun t => lit t <> ";") lex ->
   forall fuel, parseField fuel lex = OutOfFuel) /\
  (Forall (fun t => lit t <> ";") lex -> token lex = Comment ->
   forall fuel, parseEnumField fuel lex = OutOfFuel) /\
  (Forall (fun t => lit t <> "}") lex ->
   forall fuel, parseRPC fuel lex = OutOfFuel).
Proof.
  repeat split.
  - intros H fuel. unfold parseField.
    now rewrite parseField_loop_unterminated.
  - intros H Hc fuel. unfold parseEnumField. rewrite Hc. simpl.
    pose proof (Forall_parseComments _ lex H) as H'.
    destruct (parseComments lex) as [comments lex'].
    now rewrite parseEnumField_loop_unterminated.
  - intros H fuel. unfold parseRPC.
    now rewrite parseRPC_loop_unterminated.
Qed.

Lemma missing_terminator_never_returns_witness :
  parseField 40 [ident "int32"; ident "x"; punct "="; int "1"] = OutOfFuel /\
  parseEnumField 40 [comment "// c"; ident "A"; punct "="; int "0"] =
  OutOfFuel /\
  parseRPC 40 [ident "Get"; punct "("; ident "Req"; punct ")"] = OutOfFuel.
Proof.
  split; [|split].
  - apply (proj1 (missing_terminator_never_returns
                    [ident "int32"; ident "x"; punct "="; int "1"])).
    repeat constructor; discriminate.
  - apply (proj1 (proj2 (missing_terminator_never_returns
                    [comment "// c"; ident "A"; punct "="; int "0"]))).
    + repeat constructor; discriminate.
    + reflexivity.
  - apply (proj2 (proj2 (missing_terminator_never_returns
                    [ident "Get"; punct "("; ident "Req"; punct ")"]))).
    repeat constructor; discriminate.
Defined.

(** ** Enums *)

Lemma parseComments_loop_acc (lex : lexer) :
  forall s : list string,
    parseComments_loop s lex =
    (s ++ fst (parseComments lex), snd (parseComments lex)).
Proof.
  induction lex as [|t rest IH]; intros s.
  - unfold parseComments.
    rewrite (parseComments_loop_eq s []), (parseComments_loop_eq [] []).
    simpl. now rewrite app_nil_r.
  - unfold parseComments.
    rewrite (parseComments_loop_eq s), (parseComments_loop_eq []).
    destruct (token (t :: rest) =? Comment).
    + rewrite (IH (s ++ _)), (IH ([] ++ _)). simpl.
      now rewrite <- app_assoc.
    + simpl. now rewrite app_nil_r.
Qed.

(** A run of comments in front of a token that is not one. *)
Lemma parseComments_run (comments : list Token) (lex : lexer) :
  Forall (fun c => tok c = Comment) comments -> token lex <> Comment ->
  parseComments (comments ++ lex) = (map lit comments, lex).
Proof.
  intros Hc Hlex. induction Hc as [|c comments Hc _ IH].
  - now apply parseComments_not_comment.
  - unfold parseComments. rewrite parseComments_loop_eq. simpl token.
    rewrite Hc. simpl. rewrite parseComments_loop_acc, IH. reflexivity.
Qed.

Lemma parseEnumField_loop_skips (skipped : list Token) :
  forall (fuel : nat) (semi : Token) (rest : lexer),
    Forall (fun x => lit x <> ";") skipped -> lit semi = ";" ->
    (length skipped < fuel)%nat ->
    parseEnumField_loop fuel (skipped ++ semi :: rest) = Ok tt (semi :: rest).
Proof.
  induction skipped as [|x skipped IH]; intros [|fuel] semi rest Hskip Hsemi
    Hfuel; simpl in Hfuel; try lia.
  - simpl. now rewrite Hsemi.
  - inversion Hskip as [|? ? Hx Hskip']; subst.
    apply String.eqb_neq in Hx. simpl. rewrite Hx. apply IH; auto. lia.
Qed.

Lemma Forall_comment_weaken (comments : list Token) :
  Forall (fun c => tok c = Comment /\ lit c <> "}") comments ->
  Forall (fun c => tok c = Comment) comments.
Proof. apply Forall_impl. now intros c [H _]. Qed.

Lemma parseEnumField_value (fuel : nat) (v : EnumValueSyntax) (rest : lexer) :
  enum_value_ok v -> (length (value_tokens v) < fuel)%nat ->
  parseEnumField fuel (enum_value_stream v ++ rest) =
  Ok (enum_value_node v) rest.
Proof.
  destruct v as [comments tokens semi].
  unfold enum_value_ok, enum_value_stream, enum_value_node.
  cbn [value_comments value_tokens value_end].
  intros (Hne & Hc & Hfirst & Hskip & Hsemi) Hfuel.
  assert (Hc' := Forall_comment_weaken _ Hc).
  assert (Hfirst' : token ((tokens ++ [semi]) ++ rest) <> Comment).
  { destruct tokens; exact Hfirst. }
  assert (Hname : text ((tokens ++ [semi]) ++ rest) = text (tokens ++ [semi])).
  { now destruct tokens. }
  rewrite <- app_assoc. unfold parseEnumField.
  rewrite (parseComments_run comments _ Hc' Hfirst').
  assert (Hhead : token (comments ++ (tokens ++ [semi]) ++ rest) = Comment).
  { destruct comments; [now elim Hne | now inversion Hc']. }
  rewrite Hhead, Hname. change (negb (Comment =? Comment)) with false.
  cbv iota. rewrite <- app_assoc. cbn [app].
  rewrite parseEnumField_loop_skips; auto.
Qed.

(** X6: an enum value written as one or more comments, then tokens without
    [;] (the first not a comment), then [;] is read as an [EnumField] that
    carries the texts of the comments in order and, as its name, the text of
    the first token after them; the number and any options are passed over,
    and the cursor ends after the [;]. *)
Theorem parseEnumField_commented_value (fuel : nat) (v : EnumValueSyntax)
  (rest : lexer)
  (Hvalue : enum_value_ok v)
  (Hfuel : (length (value_tokens v) < fuel)%nat) :
  parseEnumField fuel (enum_value_stream v ++ rest) =
  Ok (enum_value_node v) rest.
Proof. now apply parseEnumField_value. Qed.

Lemma parseEnumField_commented_value_witness :
  parseEnumField 8
    [comment "// running"; ident "RUNNING"; punct "="; int "2"; punct "[";
     ident "deprecated"; punct "]"; punct ";"; punct "}"] =
  Ok (mkEnumField ["// running"] "RUNNING") [punct "}"].
Proof.
  apply (parseEnumField_commented_value 8
           (mkEnumValueSyntax [comment "// running"]
              [ident "RUNNING"; punct "="; int "2"; punct "[";
               ident "deprecated"; punct "]"]
              (punct ";"))
           [punct "}"]).
  - repeat split; try discriminate; repeat constructor; discriminate.
  - simpl. lia.
Defined.

Lemma parseEnumContent_loop_values (values : list EnumValueSyntax) :
  forall (fuel : nat) (fields : list EnumField) (close : Token) (rest : lexer),
    Forall enum_value_ok values -> lit close = "}" ->
    (length (flat_map enum_value_stream values) < fuel)%nat ->
    parseEnumContent_loop fuel fields
      (flat_map enum_value_stream values ++ close :: rest) =
    Ok (fields ++ map enum_value_node values) (close :: rest).
Proof.
  induction values as [|v values IH];
    intros [|fuel] fields close rest Hok Hclose Hfuel;
    try (simpl in Hfuel; lia).
  - simpl. rewrite Hclose. simpl. now rewrite app_nil_r.
  - inversion Hok as [|? ? Hv Hvalues]; subst.
    cbn [flat_map] in *. rewrite length_app in Hfuel.
    rewrite <- app_assoc. cbn [parseEnumContent_loop].
    assert (Hopen : (text (enum_value_stream v ++
                           flat_map enum_value_stream values ++ close :: rest)
                     == "}") = false).
    { destruct Hv as (Hne & Hc & _). unfold enum_value_stream.
      destruct (value_comments v) as [|c cs]; [now elim Hne|].
      inversion Hc as [|? ? [_ Hlit] _]; subst.
      now apply String.eqb_neq. }
    rewrite Hopen.
    assert (Hlen :
              (length (enum_value_stream v) =
               length (value_comments v) + length (value_tokens v) + 1)%nat).
    { unfold enum_value_stream. rewrite !length_app. simpl. lia. }
    rewrite parseEnumField_value; auto; [|lia].
    rewrite IH; auto; [|lia]. rewrite <- app_assoc. reflexivity.
Qed.

(** X7: an enum whose body is a sequence of values, each written as one or
    more comments, tokens without [;] and a [;], parses to an [Enum] with the
    name that follows the keyword and one [EnumField] per value, in the order
    of the source; the cursor ends after the closing brace.  The token between
    the name and the body is taken for the opening brace without a look. *)
Theorem parseEnum_commented_values (fuel : nat) (keyword name open : Token)
  (values : list EnumValueSyntax) (close : Token) (rest : lexer)
  (Hkeyword : lit keyword = "enum")
  (Hvalues : Forall enum_value_ok values)
  (Hclose : lit close = "}")
  (Hfuel : (length (flat_map enum_value_stream values) < fuel)%nat) :
  parseEnum fuel
    (keyword :: name :: open ::
     flat_map enum_value_stream values ++ close :: rest) =
  Ok (mkEnum [] (lit name) (map enum_value_node values)) rest.
Proof.
  unfold parseEnum, parseEnumContent. cbn [text next tl]. rewrite Hkeyword.
  cbn [String.eqb Ascii.eqb Bool.eqb negb].
  now rewrite parseEnumContent_loop_values.
Qed.

Lemma parseEnum_commented_values_witness :
  parseEnum 12
    [ident "enum"; ident "State"; punct "{";
     comment "// not known"; ident "UNKNOWN"; punct "="; int "0"; punct ";";
     comment "// on"; comment "// its way"; ident "STARTED"; punct "=";
     int "1"; punct ";";
     punct "}"; ident "message"] =
  Ok (mkEnum [] "State"
        [mkEnumField ["// not known"] "UNKNOWN";
         mkEnumField ["// on"; "// its way"] "STARTED"])
     [ident "message"].
Proof.
  apply (parseEnum_commented_values 12 (ident "enum") (ident "State")
           (punct "{")
           [mkEnumValueSyntax [comment "// not known"]
              [ident "UNKNOWN"; punct "="; int "0"] (punct ";");
            mkEnumValueSyntax [comment "// on"; comment "// its way"]
              [ident "STARTED"; punct "="; int "1"] (punct ";")]
           (punct "}") [ident "message"]).
  - reflexivity.
  - repeat constructor; discriminate.
  - reflexivity.
  - simpl. lia.
Defined.

(** ** Message and oneof bodies made of fields *)

Lemma parseField_simple (fuel : nat) (f : FieldSyntax) (rest : lexer) :
  field_ok f -> (length (field_rest f) + 3 <= fuel)%nat ->
  parseField fuel
    (field_type f :: field_name f :: field_rest f ++ field_end f :: rest) =
  Ok (mkField [] (Some (mkType (lit (field_type f)) false))
        (lit (field_name f)))
     rest.
Proof.
  intros (_ & _ & _ & Htype & Hname & Hrest & Hend) Hfuel.
  apply parseField_statement with (field_end f) (field_rest f); auto.
  - simpl. intros E. apply Htype. rewrite E. simpl. tauto.
  - rewrite parseType_eq. cbn [text next tl].
    assert (Hr : (lit (field_type f) == "repeated") = false).
    { apply String.eqb_neq. intros E. apply Htype. rewrite E. simpl. tauto. }
    rewrite Hr, parseType_dots_eq. cbn [text].
    assert (Hd : (lit (field_name f) == ".") = false).
    { apply String.eqb_neq. intros E. apply Hname. rewrite E. simpl. tauto. }
    now rewrite Hd.
  - intros E. apply Hname. rewrite E. simpl. tauto.
  - intros E. apply Hname. rewrite E. simpl. tauto.
Qed.

Lemma parseMessageContent_loop_fields (items : list FieldSyntax) :
  forall (fuel : nat) (fields : list Field) (messages : list Message)
    (enums : list Enum) (oneofs : list Oneof) (close : Token) (rest : lexer),
    Forall field_ok items -> lit close = "}" ->
    (length (flat_map field_stream items) < fuel)%nat ->
    parseMessageContent_loop fuel fields messages enums oneofs
      (flat_map field_stream items ++ close :: rest) =
    Ok (fields ++ map field_node items, messages, enums, oneofs)
       (close :: rest).
Proof.
  induction items as [|f items IH];
    intros [|fuel] fields messages enums oneofs close rest Hok Hclose Hfuel;
    try (simpl in Hfuel; lia).
  - simpl. rewrite Hclose. simpl. now rewrite app_nil_r.
  - inversion Hok as [|? ? Hf Hitems]; subst.
    cbn [flat_map] in *. rewrite length_app in Hfuel.
    assert (Hlen :
              (length (field_stream f) =
               length (field_comments f) + length (field_rest f) + 3)%nat).
    { unfold field_stream. rewrite length_app. simpl.
      rewrite length_app. simpl. lia. }
    rewrite parseMessageContent_loop_eq.
    pose proof Hf as (Hne & Hc & Hkind & Htype & _).
    assert (Hc' := Forall_comment_weaken _ Hc).
    assert (Hshape :
              field_stream f ++ flat_map field_stream items ++ close :: rest =
              field_comments f ++
              field_type f :: field_name f :: field_rest f ++
              field_end f :: flat_map field_stream items ++ close :: rest).
    { unfold field_stream. rewrite <- !app_assoc. simpl.
      now rewrite <- app_assoc. }
    rewrite <- app_assoc, Hshape.
    assert (Hhead : token (field_comments f ++
                           field_type f :: field_name f :: field_rest f ++
                           field_end f ::
                           flat_map field_stream items ++ close :: rest)
                    = Comment /\
                    text (field_comments f ++
                          field_type f :: field_name f :: field_rest f ++
                          field_end f ::
                          flat_map field_stream items ++ close :: rest)
                    <> "}").
    { destruct (field_comments f) as [|c cs]; [now elim Hne|].
      inversion Hc as [|? ? [Hk Hl] _]; subst. now split. }
    destruct Hhead as [Htok Htext]. apply String.eqb_neq in Htext.
    rewrite Htext, Htok. change (negb (Comment =? Comment)) with false.
    cbv iota.
    rewrite (parseComments_run (field_comments f)) by assumption.
    cbn [text].
    assert (Hm : (lit (field_type f) == "message") = false).
    { apply String.eqb_neq. intros E. apply Htype. rewrite E. simpl. tauto. }
    assert (He : (lit (field_type f) == "enum") = false).
    { apply String.eqb_neq. intros E. apply Htype. rewrite E. simpl. tauto. }
    assert (Ho : (lit (field_type f) == "oneof") = false).
    { apply String.eqb_neq. intros E. apply Htype. rewrite E. simpl. tauto. }
    rewrite Hm, He, Ho.
    rewrite parseField_simple by (assumption || lia).
    rewrite IH by (assumption || lia).
    rewrite <- app_assoc. reflexivity.
Qed.

(** X8: a message, and likewise a oneof, whose body is a sequence of
    fields, each written as one or more comments, a one-word type, a name,
    tokens without [;] and a [;], parses to a node with the name that follows
    the keyword and one [Field] per statement in the order of the source, each
    with the texts of its comments, its type (not repeated) and its name; the
    message has no nested message, enum or oneof, and the cursor ends after
    the closing brace. *)
Theorem parse_body_of_fields (fuel : nat) (keyword name open : Token)
  (items : list FieldSyntax) (close : Token) (rest : lexer)
  (Hitems : Forall field_ok items)
  (Hclose : lit close = "}")
  (Hfuel : (length (flat_map field_stream items) < fuel)%nat) :
  (lit keyword = "message" ->
   parseMessage (S fuel)
     (keyword :: name :: open ::
      flat_map field_stream items ++ close :: rest) =
   Ok (mkMessage [] (lit name) (map field_node items) [] [] []) rest) /\
  (lit keyword = "oneof" ->
   parseOneof (S fuel)
     (keyword :: name :: open ::
      flat_map field_stream items ++ close :: rest) =
   Ok (mkOneof [] (lit name) (map field_node items)) rest).
Proof.
  split; intros Hkeyword.
  - rewrite parseMessage_eq. cbn [text next tl]. rewrite Hkeyword.
    unfold parseMessageContent.
    now rewrite parseMessageContent_loop_fields.
  - rewrite parseOneof_eq. cbn [text next tl]. rewrite Hkeyword.
    unfold parseMessageContent.
    now rewrite parseMessageContent_loop_fields.
Qed.

Lemma parse_body_of_fields_witness :
  parseMessage 14
    [ident "message"; ident "Image"; punct "{";
     comment "// raw bytes"; ident "bytes"; ident "binary"; punct "=";
     int "2"; punct ";";
     comment "// size"; ident "int64"; ident "length"; punct "="; int "3";
     punct ";";
     punct "}"] =
  Ok (mkMessage [] "Image"
        [mkField ["// raw bytes"] (Some (mkType "bytes" false)) "binary";
         mkField ["// size"] (Some (mkType "int64" false)) "length"]
        [] [] [])
     [].
Proof.
  apply (parse_body_of_fields 13 (ident "message") (ident "Image") (punct "{")
           [mkFieldSyntax [comment "// raw bytes"] (ident "bytes")
              (ident "binary") [punct "="; int "2"] (punct ";");
            mkFieldSyntax [comment "// size"] (ident "int64")
              (ident "length") [punct "="; int "3"] (punct ";")]
           (punct "}") []).
  - repeat constructor; try discriminate;
      simpl; intros H; repeat (destruct H as [H|H]; try discriminate H);
      exact H.
  - reflexivity.
  - simpl. lia.
  - reflexivity.
Defined.

(** ** RPCs and services *)

Lemma parseRPC_loop_skips (skipped : list Token) :
  forall (fuel : nat) (rpc : RPC) (targ tret : Type_) (close : Token)
    (rest : lexer),
    RPC_Name rpc <> "" -> RPC_Argument rpc = Some targ ->
    RPC_Return rpc = Some tret ->
    Forall (fun x => lit x <> "}") skipped -> lit close = "}" ->
    (length skipped < fuel)%nat ->
    parseRPC_loop fuel rpc (skipped ++ close :: rest) = Ok rpc (close :: rest).
Proof.
  induction skipped as [|x skipped IH];
    intros [|fuel] rpc targ tret close rest Hn Ha Hr Hskip Hclose Hfuel;
    simpl in Hfuel; try lia.
  - simpl. now rewrite Hclose.
  - inversion Hskip as [|? ? Hx Hskip']; subst.
    apply String.eqb_neq in Hx, Hn. simpl. rewrite Hx, Hn, Ha, Hr.
    apply String.eqb_neq in Hn.
    apply (IH fuel rpc targ tret); auto. lia.
Qed.

Lemma parseRPC_statement (fuel : nat) (name open : Token) (lex1 lex2 : lexer)
  (targ tret : Type_) (close returns open' close' after : Token)
  (skipped : list Token) (brace : Token) (rest : lexer) :
  lit name <> "" -> lit name <> "}" -> lit open <> "}" ->
  parseType lex1 = (targ, close :: returns :: open' :: lex2) ->
  lit returns <> "}" ->
  parseType lex2 = (tret, close' :: after :: skipped ++ brace :: rest) ->
  Forall (fun x => lit x <> "}") skipped -> lit brace = "}" ->
  (length skipped + 4 <= fuel)%nat ->
  parseRPC fuel (name :: open :: lex1) =
  Ok (mkRPC [] (lit name) (Some targ) (Some tret)) rest.
Proof.
  intros Hname Hname' Hopen Harg Hreturns Hret Hskip Hbrace Hfuel.
  destruct fuel as [|[|[|fuel]]]; try lia.
  apply String.eqb_neq in Hname', Hopen, Hreturns.
  assert (Hn : (lit name == "") = false) by now apply String.eqb_neq.
  unfold parseRPC.
  cbn [parseRPC_loop text next tl RPC_Name RPC_Argument RPC_Return
         RPC_Comments].
  rewrite Hname'. cbn [String.eqb]. rewrite Hopen, Hn, Harg.
  cbn [text next tl]. rewrite Hreturns, Hret. cbn [next tl].
  rewrite (parseRPC_loop_skips skipped fuel _ targ tret brace rest); auto.
  lia.
Qed.

(** X9: an RPC is read as its name, then, past one token, the type of its
    argument, then, past three tokens, the type of its result; the tokens in
    the places of the parentheses and of [returns] are passed over without a
    look, as are the token after the result's closing parenthesis and all that
    follows up to the next closing brace, which ends the RPC. *)
Theorem parseRPC_name_argument_return (fuel : nat) (name open : Token)
  (lex1 lex2 : lexer) (targ tret : Type_)
  (close returns open' close' after : Token) (skipped : list Token)
  (brace : Token) (rest : lexer)
  (Hname : lit name <> "" /\ lit name <> "}")
  (Hopen : lit open <> "}")
  (Hargument : parseType lex1 = (targ, close :: returns :: open' :: lex2))
  (Hreturns : lit returns <> "}")
  (Hreturn : parseType lex2 =
             (tret, close' :: after :: skipped ++ brace :: rest))
  (Hskipped : Forall (fun x => lit x <> "}") skipped)
  (Hbrace : lit brace = "}")
  (Hfuel : (length skipped + 4 <= fuel)%nat) :
  parseRPC fuel (name :: open :: lex1) =
  Ok (mkRPC [] (lit name) (Some targ) (Some tret)) rest.
Proof.
  destruct Hname.
  now apply parseRPC_statement
    with lex2 close returns open' close' after skipped brace.
Qed.

(** [Get (Req) returns (Res); }], the brace being the one of the service. *)
Lemma parseRPC_name_argument_return_witness :
  parseRPC 4
    [ident "Get"; punct "("; ident "Req"; punct ")"; ident "returns";
     punct "("; ident "Res"; punct ")"; punct ";"; punct "}";
     ident "message"] =
  Ok (mkRPC [] "Get" (Some (mkType "Req" false)) (Some (mkType "Res" false)))
     [ident "message"].
Proof.
  apply (parseRPC_name_argument_return 4 (ident "Get") (punct "(")
           [ident "Req"; punct ")"; ident "returns"; punct "("; ident "Res";
            punct ")"; punct ";"; punct "}"; ident "message"]
           [ident "Res"; punct ")"; punct ";"; punct "}"; ident "message"]
           (mkType "Req" false) (mkType "Res" false)
           (punct ")") (ident "returns") (punct "(") (punct ")") (punct ";")
           [] (punct "}") [ident "message"]).
  - split; discriminate.
  - discriminate.
  - reflexivity.
  - discriminate.
  - reflexivity.
  - constructor.
  - reflexivity.
  - simpl. lia.
Defined.

Lemma parseRPC_loop_order (fuel : nat) :
  forall rpc lex rpc' rest,
    parseRPC_loop fuel rpc lex = Ok rpc' rest ->
    (RPC_Return rpc <> None -> RPC_Argument rpc <> None) ->
    (RPC_Argument rpc <> None -> RPC_Name rpc <> "") ->
    (RPC_Return rpc' <> None -> RPC_Argument rpc' <> None) /\
    (RPC_Argument rpc' <> None -> RPC_Name rpc' <> "").
Proof.
  induction fuel as [|fuel IH]; intros rpc lex rpc' rest H Hra Han;
    [discriminate|].
  simpl in H.
  destruct (text lex == "}"); [injection H as <- _; now split|].
  destruct (RPC_Name rpc == "") eqn:En.
  - apply String.eqb_eq in En.
    apply IH in H; [exact H | exact Hra |].
    simpl. intros Ha. now apply Han in Ha.
  - apply String.eqb_neq in En.
    destruct (RPC_Argument rpc) as [targ|] eqn:Ea.
    + destruct (RPC_Return rpc) as [tret|] eqn:Er.
      * apply IH in H; [exact H | |]; intros _; congruence.
      * destruct (parseType (next (next lex))).
        apply IH in H; [exact H | |]; simpl; intros _; congruence.
    + destruct (parseType (next lex)).
      apply IH in H; [exact H | |]; simpl; intros; congruence.
Qed.

(** X10: in the RPC that [parseRPC] returns the parts are filled in order: a
    result type is there only together with an argument type, and an argument
    type only together with a name that is not empty. *)
Theorem parseRPC_parts_in_order (fuel : nat) (lex : lexer) (rpc : RPC)
  (rest : lexer) (Hparsed : parseRPC fuel lex = Ok rpc rest) :
  (RPC_Return rpc <> None -> RPC_Argument rpc <> None) /\
  (RPC_Argument rpc <> None -> RPC_Name rpc <> "").
Proof.
  unfold parseRPC in Hparsed.
  destruct (parseRPC_loop fuel _ lex) as [rpc' lex'| |] eqn:Hloop;
    try discriminate.
  injection Hparsed as <- _.
  apply parseRPC_loop_order in Hloop; [exact Hloop | easy | easy].
Qed.

(** [Get ( }]: the input has a name and the start of an argument only. *)
Lemma parseRPC_parts_in_order_witness :
  (RPC_Return (mkRPC [] "Get" (Some (mkType "}" false)) None) <> None ->
   RPC_Argument (mkRPC [] "Get" (Some (mkType "}" false)) None) <> None) /\
  (RPC_Argument (mkRPC [] "Get" (Some (mkType "}" false)) None) <> None ->
   RPC_Name (mkRPC [] "Get" (Some (mkType "}" false)) None) <> "").
Proof.
  apply (parseRPC_parts_in_order 4
           [ident "Get"; punct "("; punct "}"; punct ")"; punct "}"]
           (mkRPC [] "Get" (Some (mkType "}" false)) None) []).
  reflexivity.
Defined.

Lemma parseType_simple (type : Token) (rest : lexer) :
  lit type <> "repeated" -> text rest <> "." ->
  parseType (type :: rest) = (mkType (lit type) false, rest).
Proof.
  intros Ht Hrest. apply String.eqb_neq in Ht, Hrest.
  rewrite parseType_eq. cbn [text next tl].
  now rewrite Ht, parseType_dots_eq, Hrest.
Qed.

Lemma parseRPC_simple (fuel : nat) (r : RPCSyntax) (rest : lexer) :
  rpc_ok r -> (length (rpc_body r) + 4 <= fuel)%nat ->
  parseRPC fuel
    (rpc_name r :: rpc_open r :: rpc_argument r :: rpc_close r ::
     rpc_returns r :: rpc_open' r :: rpc_return r :: rpc_close' r ::
     rpc_body_open r :: rpc_body r ++ rpc_body_close r :: rest) =
  Ok (mkRPC [] (lit (rpc_name r))
        (Some (mkType (lit (rpc_argument r)) false))
        (Some (mkType (lit (rpc_return r)) false)))
     rest.
Proof.
  intros (_ & _ & _ & _ & Hname & Hopen & Harg & Hclose & Hreturns & Hret
          & Hclose' & Hbody & Hend) Hfuel.
  apply parseRPC_statement
    with (rpc_return r :: rpc_close' r :: rpc_body_open r ::
          rpc_body r ++ rpc_body_close r :: rest)
         (rpc_close r) (rpc_returns r) (rpc_open' r) (rpc_close' r)
         (rpc_body_open r) (rpc_body r) (rpc_body_close r); auto.
  - intros E. apply Hname. rewrite E. simpl. tauto.
  - intros E. apply Hname. rewrite E. simpl. tauto.
  - now apply parseType_simple.
  - now apply parseType_simple.
Qed.

Lemma parseServiceContent_loop_rpcs (items : list RPCSyntax) :
  forall (fuel : nat) (rpcs : list RPC) (close : Token) (rest : lexer),
    Forall rpc_ok items -> lit close = "}" ->
    (length (flat_map rpc_stream items) < fuel)%nat ->
    parseServiceContent_loop fuel rpcs
      (flat_map rpc_stream items ++ close :: rest) =
    Ok (rpcs ++ map rpc_node items) (close :: rest).
Proof.
  induction items as [|r items IH];
    intros [|fuel] rpcs close rest Hok Hclose Hfuel;
    try (simpl in Hfuel; lia).
  - simpl. rewrite Hclose. simpl. now rewrite app_nil_r.
  - inversion Hok as [|? ? Hr Hitems]; subst.
    cbn [flat_map] in *. rewrite length_app in Hfuel.
    assert (Hlen : (length (rpc_stream r)
                    = length (rpc_comments r) + length (rpc_body r) + 11)%nat).
    { unfold rpc_stream. rewrite length_app. simpl.
      rewrite length_app. simpl. lia. }
    pose proof Hr as (Hne & Hc & Hkind & Hkeyword & _).
    assert (Hc' := Forall_comment_weaken _ Hc).
    set (after := flat_map rpc_stream items ++ close :: rest) in *.
    assert (Hshape :
              (rpc_stream r ++ flat_map rpc_stream items) ++ close :: rest =
              rpc_comments r ++
              rpc_keyword r :: rpc_name r :: rpc_open r :: rpc_argument r ::
              rpc_close r :: rpc_returns r :: rpc_open' r :: rpc_return r ::
              rpc_close' r :: rpc_body_open r ::
              rpc_body r ++ rpc_body_close r :: after).
    { unfold rpc_stream, after. rewrite <- !app_assoc. simpl.
      now rewrite <- app_assoc. }
    rewrite Hshape. cbn [parseServiceContent_loop].
    assert (Hhead :
              forall l, token (rpc_comments r ++ l) = Comment /\
                        text (rpc_comments r ++ l) <> "}").
    { intros l. destruct (rpc_comments r) as [|c cs]; [now elim Hne|].
      inversion Hc as [|? ? [Hk Hl] _]; subst. now split. }
    destruct (Hhead (rpc_keyword r :: rpc_name r :: rpc_open r ::
                     rpc_argument r :: rpc_close r :: rpc_returns r ::
                     rpc_open' r :: rpc_return r :: rpc_close' r ::
                     rpc_body_open r ::
                     rpc_body r ++ rpc_body_close r :: after))
      as [Htok Htext].
    apply String.eqb_neq in Htext.
    rewrite Htext, Htok. change (negb (Comment =? Comment)) with false.
    cbv iota.
    rewrite (parseComments_run (rpc_comments r)) by assumption.
    cbn [text next tl]. rewrite Hkeyword. cbn [String.eqb Ascii.eqb Bool.eqb].
    rewrite parseRPC_simple by (assumption || lia).
    unfold after. rewrite IH by (assumption || lia).
    rewrite <- app_assoc. reflexivity.
Qed.

(** X11: a service whose body is a sequence of RPCs, each written as one or
    more comments, [rpc], a name, a one-word argument type and a one-word
    result type in their parentheses around [returns], and a body up to its
    closing brace, parses to a [Service] with the name that follows the
    keyword and one [RPC] per statement in the order of the source, each with
    the texts of its comments, its name and its two types; the cursor ends
    after the closing brace of the service. *)
Theorem parseService_of_rpcs (fuel : nat) (keyword name open : Token)
  (items : list RPCSyntax) (close : Token) (rest : lexer)
  (Hkeyword : lit keyword = "service")
  (Hitems : Forall rpc_ok items)
  (Hclose : lit close = "}")
  (Hfuel : (length (flat_map rpc_stream items) < fuel)%nat) :
  parseService fuel
    (keyword :: name :: open :: flat_map rpc_stream items ++ close :: rest) =
  Ok (mkService [] (lit name) (map rpc_node items)) rest.
Proof.
  unfold parseService, parseServiceContent. cbn [text next tl].
  rewrite Hkeyword. cbn [String.eqb Ascii.eqb Bool.eqb negb].
  now rewrite parseServiceContent_loop_rpcs.
Qed.

Lemma parseService_of_rpcs_witness :
  parseService 13
    [ident "service"; ident "Store"; punct "{";
     comment "// fetches"; ident "rpc"; ident "Get"; punct "("; ident "Req";
     punct ")"; ident "returns"; punct "("; ident "Res"; punct ")";
     punct "{"; punct "}";
     punct "}"] =
  Ok (mkService [] "Store"
        [mkRPC ["// fetches"] "Get" (Some (mkType "Req" false))
           (Some (mkType "Res" false))])
     [].
Proof.
  apply (parseService_of_rpcs 13 (ident "service") (ident "Store") (punct "{")
           [mkRPCSyntax [comment "// fetches"] (ident "rpc") (ident "Get")
              (punct "(") (ident "Req") (punct ")") (ident "returns")
              (punct "(") (ident "Res") (punct ")") (punct "{") []
              (punct "}")]
           (punct "}") []).
  - reflexivity.
  - repeat constructor; try discriminate.
    simpl. intros H. repeat (destruct H as [H|H]; try discriminate H).
    exact H.
  - reflexivity.
  - simpl. lia.
Defined.

(** ** Whole files *)

Lemma parse_loop_ends_at_EOF (fuel : nat) :
  forall pkg service messages lex pb rest,
    parse_loop fuel pkg service messages lex = Ok pb rest -> token rest = EOF.
Proof.
  induction fuel as [|fuel IH]; intros pkg service messages lex pb rest H;
    [discriminate|].
  simpl in H.
  destruct (token lex =? EOF) eqn:E.
  - injection H as _ <-. now apply Z.eqb_eq.
  - destruct (parseComments lex) as [comments lex'].
    destruct (text lex' == "package").
    { destruct (parsePackage lex'); [eauto | discriminate..]. }
    destruct (text lex' == "service").
    { destruct (parseService fuel lex'); [eauto | discriminate..]. }
    destruct (text lex' == "message"); [|eauto].
    destruct (parseMessage fuel lex'); [eauto | discriminate..].
Qed.

Lemma Forall_no_keyword (lex : lexer) :
  Forall (fun t => ~ top_level_keyword (lit t)) lex ->
  Forall (fun t => lit t <> "package") lex /\
  Forall (fun t => lit t <> "service") lex /\
  Forall (fun t => lit t <> "message") lex.
Proof.
  intros H. repeat split; revert H; apply Forall_impl; intros t H E;
    apply H; unfold top_level_keyword; tauto.
Qed.

(** X12: an input in which no token reads [package], [service] or [message]
    is not an error, whatever it holds (nothing at all, comments only, other
    statements): [Parse] returns the root with the empty package name, an
    empty service and no message, having read the input to its end. *)
Theorem Parse_without_keywords (lex : lexer)
  (Hplain : Forall (fun t => ~ top_level_keyword (lit t)) lex) :
  exists rest,
    Parse (S (length lex)) lex =
    Ok (mkProtocolBuffer "" (Some (mkService [] "" [])) []) rest /\
    token rest = EOF.
Proof.
  apply Forall_no_keyword in Hplain. destruct Hplain as (Hp & Hs & Hm).
  destruct (parse_without_keywords (S (length lex)) "" (mkService [] "" []) []
              lex Hp Hs Hm) as [rest H]; [lia|].
  exists rest. split; [exact H|].
  now apply parse_loop_ends_at_EOF in H.
Qed.

Lemma Parse_without_keywords_witness :
  exists rest,
    Parse 8 [comment "// a schema"; ident "syntax"; punct "=";
             ident "proto3"; punct ";"; comment "// the end";
             comment "// really"] =
    Ok (mkProtocolBuffer "" (Some (mkService [] "" [])) []) rest /\
    token rest = EOF.
Proof.
  apply (Parse_without_keywords
           [comment "// a schema"; ident "syntax"; punct "=";
            ident "proto3"; punct ";"; comment "// the end";
            comment "// really"]).
  repeat constructor; unfold top_level_keyword; simpl;
    intros [H|[H|H]]; discriminate H.
Defined.

(** X13: the package name that [Parse] records is the text of the single
    token after [package], the empty string when the input ends there: of a
    dotted name only the first segment is kept.  Here for a file that holds,
    after its leading comments, a package statement and no service or
    message. *)
Theorem Parse_package_name (fuel : nat) (comments : list Token)
  (keyword : Token) (after : lexer)
  (Hcomments : Forall (fun c => tok c = Comment) comments)
  (Hkind : tok keyword <> Comment /\ tok keyword <> EOF)
  (Hkeyword : lit keyword = "package")
  (Hafter : Forall (fun t => ~ top_level_keyword (lit t)) after)
  (Hfuel : (length after + 1 < fuel)%nat) :
  exists rest,
    Parse fuel (comments ++ keyword :: after) =
    Ok (mkProtocolBuffer (text after) (Some (mkService [] "" [])) []) rest.
Proof.
  destruct Hkind as [Hnc Hne].
  apply Forall_no_keyword in Hafter. destruct Hafter as (Hp & Hs & Hm).
  destruct fuel as [|fuel]; [lia|].
  unfold Parse, parse. rewrite parse_loop_eq.
  - rewrite parseComments_run by assumption. cbn [fst snd text].
    rewrite Hkeyword. cbn [String.eqb Ascii.eqb Bool.eqb].
    unfold parsePackage. cbn [text next tl]. rewrite Hkeyword.
    cbn [String.eqb Ascii.eqb Bool.eqb negb].
    apply parse_without_keywords; auto. lia.
  - destruct Hcomments as [|c cs Hc _]; [exact Hne|].
    simpl. rewrite Hc. discriminate.
Qed.

(** [// v1], newline, [package foo.bar;] *)
Lemma Parse_package_name_witness :
  exists rest,
    Parse 6 [comment "// v1"; ident "package"; ident "foo"; punct ".";
             ident "bar"; punct ";"] =
    Ok (mkProtocolBuffer "foo" (Some (mkService [] "" [])) []) rest.
Proof.
  apply (Parse_package_name 6 [comment "// v1"] (ident "package")
           [ident "foo"; punct "."; ident "bar"; punct ";"]).
  - repeat constructor.
  - split; discriminate.
  - reflexivity.
  - repeat constructor; unfold top_level_keyword; simpl;
      intros [H|[H|H]]; discriminate H.
  - simpl. lia.
Defined.

(** ** The errors that reach the caller *)

Lemma body_error_comment (t : string) :
  body_error ("not found comment, text=" +++ t).
Proof. exists t. now left. Qed.

Lemma body_error_rpc (t : string) : body_error ("not found rpc, text=" +++ t).
Proof. exists t. now right. Qed.

Lemma parseEnumField_loop_no_error (fuel : nat) :
  forall lex e, parseEnumField_loop fuel lex <> Err e.
Proof.
  induction fuel as [|fuel IH]; intros lex e; [discriminate|]. simpl.
  destruct (text lex == ";"); [discriminate | apply IH].
Qed.

Lemma parseEnumField_errors (fuel : nat) (lex : lexer) (e : string) :
  parseEnumField fuel lex = Err e -> body_error e.
Proof.
  unfold parseEnumField.
  destruct (negb (token lex =? Comment)).
  - intros H. injection H as <-. apply body_error_comment.
  - destruct (parseComments lex) as [comments lex'].
    pose proof (parseEnumField_loop_no_error fuel lex' e) as Hloop.
    destruct (parseEnumField_loop fuel lex'); congruence.
Qed.

Lemma parseEnum_errors (fuel : nat) (lex : lexer) (e : string) :
  text lex = "enum" -> parseEnum fuel lex = Err e -> body_error e.
Proof.
  intros Ht. unfold parseEnum, parseEnumContent. rewrite Ht.
  cbn [String.eqb Ascii.eqb Bool.eqb negb].
  generalize (next (next (next lex))) as l, (@nil EnumField) as fields.
  induction fuel as [|fuel IH]; intros l fields; [discriminate|]. simpl.
  destruct (text l == "}"); [discriminate|].
  destruct (parseEnumField fuel l) as [field l'| |] eqn:Hf.
  - intros H. destruct (parseEnumContent_loop fuel _ l') eqn:Hloop;
      try discriminate.
    apply (IH l' (fields ++ [field])). now rewrite Hloop.
  - intros H. injection H as <-. now apply parseEnumField_errors in Hf.
  - discriminate.
Qed.

Lemma parseService_errors (fuel : nat) (lex : lexer) (e : string) :
  text lex = "service" -> parseService fuel lex = Err e -> body_error e.
Proof.
  intros Ht. unfold parseService, parseServiceContent. rewrite Ht.
  cbn [String.eqb Ascii.eqb Bool.eqb negb].
  generalize (next (next (next lex))) as l, (@nil RPC) as rpcs.
  induction fuel as [|fuel IH]; intros l rpcs; [discriminate|]. simpl.
  destruct (text l == "}"); [discriminate|].
  destruct (negb (token l =? Comment)).
  { intros H. injection H as <-. apply body_error_comment. }
  destruct (parseComments l) as [comments l'].
  destruct (text l' == "rpc").
  - pose proof (parseRPC_no_error fuel (next l') e) as Hrpc.
    destruct (parseRPC fuel (next l')) as [rpc l''| |]; try congruence.
    intros H. destruct (parseServiceContent_loop fuel _ l'') eqn:Hloop;
      try discriminate.
    apply (IH l'' (rpcs ++
                   [mkRPC (RPC_Comments rpc ++ comments) (RPC_Name rpc)
                      (RPC_Argument rpc) (RPC_Return rpc)])).
    now rewrite Hloop.
  - intros H. injection H as <-. apply body_error_rpc.
Qed.

Lemma message_productions_errors (fuel : nat) (e : string) :
  (forall lex,
      text lex = "message" -> parseMessage fuel lex = Err e -> body_error e) /\
  (forall fields messages enums oneofs lex,
      parseMessageContent_loop fuel fields messages enums oneofs lex = Err e ->
      body_error e) /\
  (forall lex,
      text lex = "oneof" -> parseOneof fuel lex = Err e -> body_error e).
Proof.
  induction fuel as [|fuel (IHm & IHc & IHo)].
  - repeat split.
    + intros lex Ht. rewrite parseMessage_eq, Ht. discriminate.
    + discriminate.
    + intros lex Ht. rewrite parseOneof_eq, Ht. discriminate.
  - repeat split.
    + intros lex Ht. rewrite parseMessage_eq, Ht.
      cbn [String.eqb Ascii.eqb Bool.eqb negb]. unfold parseMessageContent.
      destruct (parseMessageContent_loop fuel _ _ _ _ _)
        as [[[[fs ns] es] os] l| |] eqn:Hc; try discriminate.
      intros H. injection H as <-. now apply IHc in Hc.
    + intros fields messages enums oneofs lex.
      rewrite parseMessageContent_loop_eq.
      destruct (text lex == "}"); [discriminate|].
      destruct (negb (token lex =? Comment)).
      { intros H. injection H as <-. apply body_error_comment. }
      destruct (parseComments lex) as [comments lex'].
      destruct (text lex' == "message") eqn:Em.
      { apply String.eqb_eq in Em.
        destruct (parseMessage fuel lex') eqn:Hm; [apply IHc| |discriminate].
        intros H. injection H as <-. now apply IHm in Hm. }
      destruct (text lex' == "enum") eqn:Ee.
      { apply String.eqb_eq in Ee.
        destruct (parseEnum fuel lex') eqn:He; [apply IHc| |discriminate].
        intros H. injection H as <-. now apply parseEnum_errors in He. }
      destruct (text lex' == "oneof") eqn:Eo.
      { apply String.eqb_eq in Eo.
        destruct (parseOneof fuel lex') eqn:Ho; [apply IHc| |discriminate].
        intros H. injection H as <-. now apply IHo in Ho. }
      pose proof (parseField_no_error fuel lex' e) as Hf.
      destruct (parseField fuel lex'); [apply IHc | congruence | discriminate].
    + intros lex Ht. rewrite parseOneof_eq, Ht.
      cbn [String.eqb Ascii.eqb Bool.eqb negb]. unfold parseMessageContent.
      destruct (parseMessageContent_loop fuel _ _ _ _ _)
        as [[[[fs ns] es] os] l| |] eqn:Hc; try discriminate.
      intros H. injection H as <-. now apply IHc in Hc.
Qed.

(** X14: the only errors that [Parse] returns are [not found comment] and
    [not found rpc], each followed by the text of the offending token: the
    errors of a missing keyword ([not found message], [not found enum],
    [not found oneof] and the two marked [BUG]) never reach the caller, since
    every production is entered on its keyword. *)
Theorem Parse_errors (fuel : nat) (input : lexer) (e : string)
  (Hfailed : Parse fuel input = Err e) :
  exists t : string,
    e = "not found comment, text=" +++ t \/ e = "not found rpc, text=" +++ t.
Proof.
  apply parse_error_origin in Hfailed.
  destruct Hfailed as (fuel' & lex' & [[Ht He]|[Ht He]]).
  - now apply parseService_errors in He.
  - now apply (proj1 (message_productions_errors fuel' e)) in He.
Qed.

(** [service S { // c], newline, [option deadline = 1; }] *)
Lemma Parse_errors_witness :
  exists t : string,
    "not found rpc, text=option" = "not found comment, text=" +++ t \/
    "not found rpc, text=option" = "not found rpc, text=" +++ t.
Proof.
  apply (Parse_errors 3
           [ident "service"; ident "S"; punct "{"; comment "// c";
            ident "option"; ident "deadline"; punct "="; int "1"; punct ";";
            punct "}"]).
  reflexivity.
Defined.

(** ** Comments in the tree *)

Lemma parseEnumContent_loop_commented (fuel : nat) :
  forall fields lex fs rest,
    parseEnumContent_loop fuel fields lex = Ok fs rest ->
    Forall (fun f => EnumField_Comments f <> []) fields ->
    Forall (fun f => EnumField_Comments f <> []) fs.
Proof.
  induction fuel as [|fuel IH]; intros fields lex fs rest H Hf;
    [discriminate|].
  simpl in H.
  destruct (text lex == "}"); [now injection H as <- _|].
  unfold parseEnumField in H.
  destruct (token lex =? Comment) eqn:Hc; [|discriminate]. simpl in H.
  apply Z.eqb_eq, parseComments_at_comment in Hc.
  destruct (parseComments lex) as [comments lex']. simpl in Hc.
  destruct (parseEnumField_loop fuel lex'); [|discriminate..].
  apply IH in H; [exact H|].
  apply Forall_app; split; [exact Hf|]. now repeat constructor.
Qed.

Lemma parseServiceContent_loop_commented (fuel : nat) :
  forall rpcs lex rs rest,
    parseServiceContent_loop fuel rpcs lex = Ok rs rest ->
    Forall (fun r => RPC_Comments r <> []) rpcs ->
    Forall (fun r => RPC_Comments r <> []) rs.
Proof.
  induction fuel as [|fuel IH]; intros rpcs lex rs rest H Hr; [discriminate|].
  simpl in H.
  destruct (text lex == "}"); [now injection H as <- _|].
  destruct (token lex =? Comment) eqn:Hc; [|discriminate]. simpl in H.
  apply Z.eqb_eq, parseComments_at_comment in Hc.
  destruct (parseComments lex) as [comments lex']. simpl in Hc.
  destruct (text lex' == "rpc"); [|discriminate].
  destruct (parseRPC fuel (next lex')) as [rpc l| |]; [|discriminate..].
  apply IH in H; [exact H|].
  apply Forall_app; split; [exact Hr|]. repeat constructor. simpl.
  intros E. apply app_eq_nil in E. now destruct E.
Qed.

Lemma parsed_bodies_commented_aux (fuel : nat) (lex rest : lexer) :
  (forall m, parseMessage fuel lex = Ok m rest -> Message_Comments m = []) /\
  (forall s, parseService fuel lex = Ok s rest -> Service_Comments s = []).
Proof.
  split.
  - intros m H. rewrite parseMessage_eq in H.
    destruct (negb (text lex == "message")); [discriminate|].
    destruct fuel as [|fuel]; [discriminate|].
    destruct (parseMessageContent fuel _) as [[[[fs ns] es] os] l| |];
      try discriminate.
    now injection H as <- _.
  - intros s H. unfold parseService in H.
    destruct (negb (text lex == "service")); [discriminate|].
    destruct (parseServiceContent fuel _) as [rs l| |]; try discriminate.
    now injection H as <- _.
Qed.

(** X15: every production returns its node without comments of its own (the
    caller adds them), and every element inside the body of a parsed message,
    oneof, enum or service carries at least one comment. *)
Theorem parsed_bodies_commented (fuel : nat) (lex rest : lexer) :
  (forall m, parseMessage fuel lex = Ok m rest ->
             Message_Comments m = [] /\
             Forall (fun f => Field_Comments f <> []) (Message_Fields m) /\
             Forall (fun n => Message_Comments n <> []) (Message_Nests m) /\
             Forall (fun e => Enum_Comments e <> []) (Message_Enums m) /\
             Forall (fun o => Oneof_Comments o <> []) (Message_Oneofs m)) /\
  (forall o, parseOneof fuel lex = Ok o rest ->
             Oneof_Comments o = [] /\
             Forall (fun f => Field_Comments f <> []) (Oneof_Fields o)) /\
  (forall e, parseEnum fuel lex = Ok e rest ->
             Enum_Comments e = [] /\
             Forall (fun f => EnumField_Comments f <> [])
                    (Enum_EnumFields e)) /\
  (forall s, parseService fuel lex = Ok s rest ->
             Service_Comments s = [] /\
             Forall (fun r => RPC_Comments r <> []) (Service_RPCs s)).
Proof.
  split; [|split; [|split]].
  - intros m H. rewrite parseMessage_eq in H.
    destruct (negb (text lex == "message")); [discriminate|].
    destruct fuel as [|fuel]; [discriminate|].
    unfold parseMessageContent in H.
    destruct (parseMessageContent_loop fuel [] [] [] [] _)
      as [[[[fs ns] es] os] l| |] eqn:Hc; try discriminate.
    injection H as <- _. split; [reflexivity|].
    now apply body_elements_commented in Hc.
  - intros o H. rewrite parseOneof_eq in H.
    destruct (negb (text lex == "oneof")); [discriminate|].
    destruct fuel as [|fuel]; [discriminate|].
    unfold parseMessageContent in H.
    destruct (parseMessageContent_loop fuel [] [] [] [] _)
      as [[[[fs ns] es] os] l| |] eqn:Hc; try discriminate.
    injection H as <- _. split; [reflexivity|].
    now apply body_elements_commented in Hc.
  - intros e H. unfold parseEnum, parseEnumContent in H.
    destruct (negb (text lex == "enum")); [discriminate|].
    destruct (parseEnumContent_loop fuel [] _) as [fs l| |] eqn:Hc;
      try discriminate.
    injection H as <- _. split; [reflexivity|].
    now apply parseEnumContent_loop_commented in Hc.
  - intros s H. unfold parseService, parseServiceContent in H.
    destruct (negb (text lex == "service")); [discriminate|].
    destruct (parseServiceContent_loop fuel [] _) as [rs l| |] eqn:Hc;
      try discriminate.
    injection H as <- _. split; [reflexivity|].
    now apply parseServiceContent_loop_commented in Hc.
Qed.

Lemma parsed_bodies_commented_witness :
  Oneof_Comments
    (mkOneof [] "foo"
       [mkField ["// name"] (Some (mkType "string" false)) "name"]) = [] /\
  Forall (fun f => Field_Comments f <> [])
    (Oneof_Fields
       (mkOneof [] "foo"
          [mkField ["// name"] (Some (mkType "string" false)) "name"])).
Proof.
  apply (proj1 (proj2 (parsed_bodies_commented
                         12 oneof_with_message_input []))).
  reflexivity.
Defined.

(** ** Comments at file scope and at the end of a body *)

(** X16: at file scope a message needs no comment before it, and the
    comments that do stand before it become its comments, in order.  Here for
    a file that holds, after these comments, one message that parses and then
    no further package, service or message. *)
Theorem Parse_message_takes_leading_comments (fuel : nat)
  (comments : list Token) (lex after : lexer) (m : Message)
  (Hcomments : Forall (fun c => tok c = Comment) comments)
  (Hkind : token lex <> Comment /\ token lex <> EOF)
  (Hkeyword : text lex = "message")
  (Hmessage : parseMessage fuel lex = Ok m after)
  (Hafter : Forall (fun t => ~ top_level_keyword (lit t)) after)
  (Hfuel : (length after < fuel)%nat) :
  exists rest,
    Parse (S fuel) (comments ++ lex) =
    Ok (mkProtocolBuffer "" (Some (mkService [] "" []))
          [mkMessage (map lit comments) (Message_Name m) (Message_Fields m)
             (Message_Nests m) (Message_Enums m) (Message_Oneofs m)])
       rest.
Proof.
  destruct Hkind as [Hnc Hne].
  apply Forall_no_keyword in Hafter. destruct Hafter as (Hp & Hs & Hm).
  assert (Hnone : Message_Comments m = []).
  { now apply (proj1 (parsed_bodies_commented_aux fuel lex after)). }
  unfold Parse, parse. rewrite parse_loop_eq.
  - rewrite parseComments_run by assumption. cbn [fst snd].
    rewrite Hkeyword. cbn [String.eqb Ascii.eqb Bool.eqb].
    rewrite Hmessage, Hnone. cbn [app].
    apply parse_without_keywords; auto.
  - destruct Hcomments as [|c cs Hc _]; [exact Hne|].
    simpl. rewrite Hc. discriminate.
Qed.

(** [// the only message], newline, [message M { }] *)
Lemma Parse_message_takes_leading_comments_witness :
  exists rest,
    Parse 3 [comment "// the only message"; ident "message"; ident "M";
             punct "{"; punct "}"] =
    Ok (mkProtocolBuffer "" (Some (mkService [] "" []))
          [mkMessage ["// the only message"] "M" [] [] [] []])
       rest.
Proof.
  apply (Parse_message_takes_leading_comments 2
           [comment "// the only message"]
           [ident "message"; ident "M"; punct "{"; punct "}"] []
           (mkMessage [] "M" [] [] [] [])).
  - repeat constructor.
  - split; discriminate.
  - reflexivity.
  - reflexivity.
  - constructor.
  - simpl. lia.
Defined.

Lemma commented_head (comments : list Token) (lex : lexer) :
  comments <> [] ->
  Forall (fun c => tok c = Comment /\ lit c <> "}") comments ->
  token (comments ++ lex) = Comment /\ (text (comments ++ lex) == "}") = false.
Proof.
  intros Hne Hc. destruct comments as [|c cs]; [now elim Hne|].
  inversion Hc as [|? ? [Hk Hl] _]; subst. split; [exact Hk|].
  now apply String.eqb_neq.
Qed.

(** X17: inside a service a statement that has its comments but does not
    start with [rpc] is an error, [not found rpc] with the text of its first
    token; so is a comment that stands just before the closing brace of the
    service. *)
Theorem parseService_element_not_rpc (fuel : nat) (keyword name open : Token)
  (comments : list Token) (first : Token) (rest : lexer)
  (Hkeyword : lit keyword = "service")
  (Hsome : comments <> [])
  (Hcomments : Forall (fun c => tok c = Comment /\ lit c <> "}") comments)
  (Hfirst : tok first <> Comment /\ lit first <> "rpc") :
  parseService (S fuel)
    (keyword :: name :: open :: comments ++ first :: rest) =
  Err ("not found rpc, text=" +++ lit first).
Proof.
  destruct Hfirst as [Hkind Hrpc]. apply String.eqb_neq in Hrpc.
  destruct (commented_head comments (first :: rest) Hsome Hcomments)
    as [Htok Htext].
  unfold parseService, parseServiceContent. cbn [text next tl].
  rewrite Hkeyword. cbn [String.eqb Ascii.eqb Bool.eqb negb].
  cbn [parseServiceContent_loop]. rewrite Htext, Htok.
  change (negb (Comment =? Comment)) with false. cbv iota.
  rewrite parseComments_run
    by (try apply Forall_comment_weaken; assumption).
  cbn [text]. now rewrite Hrpc.
Qed.

(** [service S { // no more], newline, [}] *)
Lemma parseService_element_not_rpc_witness :
  parseService 1
    [ident "service"; ident "S"; punct "{"; comment "// no more";
     punct "}"] =
  Err "not found rpc, text=}".
Proof.
  apply (parseService_element_not_rpc 0 (ident "service") (ident "S")
           (punct "{") [comment "// no more"] (punct "}") []).
  - reflexivity.
  - discriminate.
  - repeat constructor; discriminate.
  - split; discriminate.
Defined.

(** X18: a comment that stands just before the closing brace of a message,
    a oneof or an enum does not end the body: the brace is read as the start
    of one more field or value, and when no [;] follows in the rest of the
    input the body production never returns. *)
Theorem comment_before_closing_brace (comments : list Token) (brace : Token)
  (after : lexer)
  (Hsome : comments <> [])
  (Hcomments : Forall (fun c => tok c = Comment /\ lit c <> "}") comments)
  (Hbrace : tok brace <> Comment /\ lit brace = "}")
  (Hafter : Forall (fun t => lit t <> ";") after) :
  forall fuel,
    parseMessageContent fuel (comments ++ brace :: after) = OutOfFuel /\
    parseEnumContent fuel (comments ++ brace :: after) = OutOfFuel.
Proof.
  destruct Hbrace as [Hkind Hlit].
  destruct (commented_head comments (brace :: after) Hsome Hcomments)
    as [Htok Htext].
  assert (Hc' := Forall_comment_weaken _ Hcomments).
  assert (Hall : Forall (fun t => lit t <> ";") (brace :: after)).
  { constructor; [rewrite Hlit; discriminate | exact Hafter]. }
  intros [|fuel]; [now split|]. split.
  - unfold parseMessageContent. rewrite parseMessageContent_loop_eq.
    rewrite Htext, Htok. change (negb (Comment =? Comment)) with false.
    cbv iota. rewrite parseComments_run by assumption.
    cbn [text]. rewrite Hlit. cbn [String.eqb Ascii.eqb Bool.eqb].
    unfold parseField. now rewrite parseField_loop_unterminated.
  - unfold parseEnumContent. cbn [parseEnumContent_loop]. rewrite Htext.
    unfold parseEnumField. rewrite Htok.
    change (negb (Comment =? Comment)) with false. cbv iota.
    rewrite parseComments_run by assumption.
    now rewrite parseEnumField_loop_unterminated.
Qed.

(** [message M { // nothing here], newline, [}] and the input ends. *)
Lemma comment_before_closing_brace_witness :
  parseMessageContent 50 [comment "// nothing here"; punct "}"] = OutOfFuel /\
  parseEnumContent 50 [comment "// nothing here"; punct "}"] = OutOfFuel.
Proof.
  apply (comment_before_closing_brace [comment "// nothing here"]
           (punct "}") []).
  - discriminate.
  - repeat constructor; discriminate.
  - split; [discriminate | reflexivity].
  - constructor.
Defined.

(** ** Files, statement by statement *)

Lemma parse_loop_trailing (fuel : nat) (pkg : string) (service : Service)
  (messages : list Message) (trailing : lexer) :
  Forall (fun c => tok c = Comment) trailing ->
  parse_loop (S (S fuel)) pkg service messages trailing =
  Ok (mkProtocolBuffer pkg (Some service) messages) [].
Proof.
  intros Ht. destruct trailing as [|c cs]; [reflexivity|].
  assert (Hmore : token (c :: cs) <> EOF).
  { inversion Ht as [|? ? Hc _]; subst. simpl. rewrite Hc. discriminate. }
  rewrite parse_loop_eq by assumption.
  rewrite <- (app_nil_r (c :: cs)).
  rewrite parseComments_run by (assumption || discriminate).
  reflexivity.
Qed.

Lemma statement_head (comments : list Token) (lex : lexer) :
  Forall (fun c => tok c = Comment) comments ->
  token lex <> EOF -> token (comments ++ lex) <> EOF.
Proof.
  intros Hc Hlex. destruct Hc as [|c cs Hc _]; [exact Hlex|].
  simpl. rewrite Hc. discriminate.
Qed.

Lemma keyword_head (tokens rest : lexer) :
  token tokens <> EOF ->
  token (tokens ++ rest) = token tokens /\
  text (tokens ++ rest) = text tokens.
Proof. destruct tokens; [now intros H; elim H | now split]. Qed.

(** The loop of [parse] over a file given by its statements: what each
    iteration does to what has been collected. *)
Lemma parse_loop_statements (fuel : nat) (trailing : lexer)
  (sts : list Statement) :
  Forall (fun c => tok c = Comment) trailing ->
  Forall (statement_ok fuel) sts ->
  forall pkg service messages,
    parse_loop (fuel + length sts + 2) pkg service messages
      (statements_stream sts ++ trailing) =
    Ok (mkProtocolBuffer (package_of sts trailing pkg)
          (Some (service_of sts service)) (messages ++ messages_of sts))
       [].
Proof.
  intros Ht Hok.
  induction Hok as [|st sts Hst _ IH]; intros pkg service messages.
  - simpl. rewrite app_nil_r, Nat.add_0_r, Nat.add_comm.
    now apply parse_loop_trailing.
  - replace (fuel + length (st :: sts) + 2)%nat
      with (S (fuel + length sts + 2)) by (simpl; lia).
    unfold statements_stream in *. cbn [flat_map]. rewrite <- app_assoc.
    set (after := flat_map statement_stream sts ++ trailing) in *.
    destruct st as [comments t|comments keyword|comments tokens s
                   |comments tokens m]; cbn [statement_stream statement_ok]
      in *.
    + destruct Hst as (Hc & Hkind & Hmore & Hplain).
      rewrite <- app_assoc. cbn [app].
      rewrite parse_loop_skip;
        rewrite ?parseComments_run by assumption; cbn [snd text next tl].
      * apply IH.
      * now apply statement_head.
      * intros E. apply Hplain. unfold top_level_keyword. tauto.
      * intros E. apply Hplain. unfold top_level_keyword. tauto.
      * intros E. apply Hplain. unfold top_level_keyword. tauto.
    + destruct Hst as (Hc & Hkind & Hmore & Hkeyword).
      rewrite <- app_assoc. cbn [app].
      rewrite parse_loop_eq by now apply statement_head.
      rewrite parseComments_run by assumption. cbn [fst snd text].
      rewrite Hkeyword. cbn [String.eqb Ascii.eqb Bool.eqb].
      unfold parsePackage. cbn [text next tl]. rewrite Hkeyword.
      cbn [String.eqb Ascii.eqb Bool.eqb negb].
      apply IH.
    + destruct Hst as (Hc & Hkind & Hmore & Hkeyword & Hs).
      destruct (keyword_head tokens after Hmore) as [Htok Htext].
      rewrite <- app_assoc.
      rewrite parse_loop_eq by (apply statement_head; congruence).
      rewrite parseComments_run by congruence. cbn [fst snd].
      rewrite Htext, Hkeyword. cbn [String.eqb Ascii.eqb Bool.eqb].
      rewrite (parseService_more_fuel fuel) by (rewrite ?Hs; (lia || easy)).
      rewrite Hs. apply IH.
    + destruct Hst as (Hc & Hkind & Hmore & Hkeyword & Hm).
      destruct (keyword_head tokens after Hmore) as [Htok Htext].
      rewrite <- app_assoc.
      rewrite parse_loop_eq by (apply statement_head; congruence).
      rewrite parseComments_run by congruence. cbn [fst snd].
      rewrite Htext, Hkeyword. cbn [String.eqb Ascii.eqb Bool.eqb].
      rewrite (proj1 (message_productions_more_fuel fuel))
        by (rewrite ?Hm; (lia || easy)).
      rewrite Hm. rewrite IH. cbn [messages_of flat_map app].
      now rewrite <- app_assoc.
Qed.

Lemma unrecognized_leave_nothing (sts : list Statement) :
  Forall is_unrecognized sts ->
  forall trailing pkg service,
    messages_of sts = [] /\ service_of sts service = service /\
    (forall more, package_of (sts ++ more) trailing pkg =
                  package_of more trailing pkg).
Proof.
  induction 1 as [|st sts Hst _ IH]; intros trailing pkg service.
  - repeat split.
  - destruct st; try now elim Hst.
    destruct (IH trailing pkg service) as (Hm & Hs & Hp).
    repeat split; assumption.
Qed.

(** C6, as the specification words it, fails: the statement
    [import], quoted [service.proto], [;] is not one that [parse] recognizes,
    yet it makes the whole-file parse fail, the word [service] inside it
    being taken for the start of a service. *)
Lemma unrecognized_statement_fails :
  Parse 20 import_service_input =
  Err ("not found comment, text=" +++ String.String "034" "") /\
  ~ (exists fuel pb rest, Parse fuel import_service_input = Ok pb rest).
Proof.
  assert (Herr : Parse 20 import_service_input =
                 Err ("not found comment, text=" +++ String.String "034" ""))
    by reflexivity.
  split; [exact Herr|].
  intros (fuel & pb & rest & H).
  destruct (Nat.le_ge_cases fuel 20) as [Hle|Hge].
  - rewrite (Parse_more_fuel fuel 20) in Herr by (rewrite ?H; easy).
    congruence.
  - rewrite (Parse_more_fuel 20 fuel) in H by (rewrite ?Herr; easy).
    congruence.
Qed.

(** C6 (amended): a token at file scope that is not a comment and reads none
    of [package], [service] and [message] is passed over, with the comments
    before it, in one iteration of the loop of [parse]; it raises no error
    and leaves nothing in the result.  A file made of such tokens only parses
    to exactly what had been collected, and a message among such tokens is
    parsed and recorded as if they were not there. *)
Theorem parse_skips_unrecognized (fuel : nat) (pkg : string)
  (service : Service) (messages : list Message)
  (before after : list Statement) (trailing comments tokens : list Token)
  (m : Message)
  (Hbefore : Forall (statement_ok fuel) before /\
             Forall is_unrecognized before)
  (Hafter : Forall (statement_ok fuel) after /\ Forall is_unrecognized after)
  (Htrailing : Forall (fun c => tok c = Comment) trailing)
  (Hmessage : statement_ok fuel (MessageDecl comments tokens m)) :
  parse_loop (fuel + length before + 2) pkg service messages
    (statements_stream before ++ trailing) =
  Ok (mkProtocolBuffer pkg (Some service) messages) [] /\
  parse_loop (fuel + length (before ++ MessageDecl comments tokens m :: after)
              + 2)
    pkg service messages
    (statements_stream (before ++ MessageDecl comments tokens m :: after)
     ++ trailing) =
  Ok (mkProtocolBuffer pkg (Some service)
        (messages ++
         [mkMessage (Message_Comments m ++ map lit comments) (Message_Name m)
            (Message_Fields m) (Message_Nests m) (Message_Enums m)
            (Message_Oneofs m)]))
     [].
Proof.
  destruct Hbefore as [Hb Hbu], Hafter as [Ha Hau].
  destruct (unrecognized_leave_nothing before Hbu trailing pkg service)
    as (Hbm & Hbs & Hbp).
  destruct (unrecognized_leave_nothing after Hau trailing pkg service)
    as (Ham & Has & Hap).
  split.
  - rewrite parse_loop_statements by assumption.
    rewrite Hbm, Hbs, app_nil_r.
    specialize (Hbp []). rewrite app_nil_r in Hbp. now rewrite Hbp.
  - rewrite parse_loop_statements; try assumption.
    + rewrite Hbp. cbn [package_of].
      specialize (Hap []). rewrite app_nil_r in Hap. cbn [package_of] in Hap.
      rewrite Hap.
      unfold service_of. rewrite fold_left_app.
      fold (service_of before service).
      rewrite Hbs. cbn [fold_left]. fold (service_of after service).
      rewrite Has.
      unfold messages_of. rewrite flat_map_app.
      fold (messages_of before). rewrite Hbm. cbn [flat_map app].
      fold (messages_of after). rewrite Ham. reflexivity.
    + apply Forall_app. split; [assumption|]. now constructor.
Qed.

Lemma parse_skips_unrecognized_witness :
  Parse 9 syntax_then_message_input =
  Ok (mkProtocolBuffer "" (Some (mkService [] "" []))
        [mkMessage [] "B" [] [] [] []])
     [].
Proof.
  apply (parse_skips_unrecognized 2 "" (mkService [] "" []) []
           [Unrecognized [] (ident "syntax"); Unrecognized [] (punct "=");
            Unrecognized [] (ident "proto3"); Unrecognized [] (punct ";")]
           [] [] []
           [ident "message"; ident "B"; punct "{"; punct "}"]
           (mkMessage [] "B" [] [] [] [])).
  - split; repeat constructor; try discriminate;
      unfold top_level_keyword; simpl; intros [H|[H|H]]; discriminate H.
  - split; constructor.
  - constructor.
  - repeat split; try discriminate. constructor.
Defined.

(** ** The root node, exactly *)

(** C7 (amended): for a file given by its top-level statements, with any
    comments after the last of them, the root holds: as package name the text
    of the single token that follows the last [package] word (the empty
    string when there is none); one service, the last one declared, with the
    comments before it (an empty service when there is none); and the
    messages, each once, in the order of their declaration, each with the
    comments before it.  Nothing else is recorded: the tokens of an import or
    an option go through the same loop one by one, as unrecognized tokens or,
    when they read [package], [service] or [message], as the start of that
    construct. *)
Theorem root_record (fuel : nat) (sts : list Statement) (trailing : lexer)
  (Hstatements : Forall (statement_ok fuel) sts)
  (Htrailing : Forall (fun c => tok c = Comment) trailing) :
  Parse (fuel + length sts + 2) (statements_stream sts ++ trailing) =
  Ok (mkProtocolBuffer (package_of sts trailing "")
        (Some (service_of sts (mkService [] "" []))) (messages_of sts))
     [].
Proof.
  unfold Parse, parse. now rewrite parse_loop_statements.
Qed.

Lemma root_record_witness :
  Parse 12 (statements_stream mixed_file ++ [comment "// end of file"]) =
  Ok (mkProtocolBuffer "" (Some (mkService [] "T" []))
        [mkMessage [] "A" [] [] [] [];
         mkMessage ["// second"] "B" [] [] [] []])
     [].
Proof.
  apply (root_record 2 mixed_file [comment "// end of file"]).
  - repeat constructor; try discriminate;
      try (unfold top_level_keyword; simpl; intros [H|[H|H]];
           discriminate H).
  - repeat constructor.
Defined.

(** [option java_package =], then a quoted [my.package.foo], then [;]: the
    word [package] inside the value is taken for a package statement, and the
    [.] after it for the name. *)
Example option_value_read_as_package :
  Parse 12
    [ident "option"; ident "java_package"; punct "="; punct "034";
     ident "my"; punct "."; ident "package"; punct "."; ident "foo";
     punct "034"; punct ";"] =
  Ok (mkProtocolBuffer "." (Some (mkService [] "" [])) []) [].
Proof. reflexivity. Qed.
